(** * gmail-attachments-downloader: filename de-duplication, archive packing
      and the retry wrapper

    A shallow embedding of
      - [deduplicateFilenames] and [createZip]   (src/zip.ts, lines 16-66)
      - [withRetry]              (the Gmail API operations module, gmail.ts,
                                  "T3.4 - Retry wrapper with exponential backoff")
    together with the properties the specification states about them, and of
      - [extractAttachments], [getMessageAttachments], [searchMessages] and
        [downloadAttachment]                     (gmail.ts)
      - [writeZipToFile]                         (src/zip.ts, lines 75-113)
      - [refreshTokenIfNeeded] and [saveToken]   (auth.ts)
      - [parseArgs], [formatBytes] and the scanning and download loops of
        [main]                                   (src/index.ts)
    with further properties read off the code.

    Conventions of the embedding.
      - A JavaScript string is a [string]; the only characters the code
        inspects or inserts ('.', '_' and decimal digits) are ASCII, so the
        index arithmetic of [lastIndexOf] and [slice] is the same on bytes
        and on UTF-16 code units.
      - A [Buffer] is a [list byte].
      - A JavaScript number that the code uses as a counter, an attempt
        index, a status code or a delay is an integer ([nat] for the
        occurrence counter, which starts at 0 and only grows by 1, [Z]
        elsewhere).
      - [Map<string, number>] is stdpp's [gmap string nat]. *)

From Stdlib Require Import ZArith String Ascii DecimalString DecimalZ.
From stdpp Require Import gmap strings list fin_maps.

Open Scope Z_scope.

(** ** JavaScript primitives used by the source *)

Module JS.

(** Template-literal rendering of an integer-valued number.  JavaScript
    prints the decimal numeral of every safe integer (magnitude below
    2^53); this definition is that numeral.  Beyond 2^53 JavaScript prints
    the shortest digits that round-trip, and exponent notation from 10^21,
    so the definition stands for the source on safe integers only. *)
Definition numToString (z : Z) : string :=
  NilZero.string_of_int (Z.to_int z).

(** [s.lastIndexOf(c)] for a one-character search string: the index of
    the last occurrence, or -1. *)
Fixpoint lastIndexOf (c : ascii) (s : string) : Z :=
  match s with
  | EmptyString => -1
  | String a s' =>
      let r := lastIndexOf c s' in
      if 0 <=? r then r + 1
      else if Ascii.eqb a c then 0 else -1
  end.

(** [s.slice(b, e)] and [s.slice(b)] for indices [0 <= b <= e]. *)
Definition slice (s : string) (b e : Z) : string :=
  substring (Z.to_nat b) (Z.to_nat (e - b)) s.

Definition sliceFrom (s : string) (b : Z) : string :=
  slice s b (Z.of_nat (String.length s)).

(** Does the character occur in the string?  (Used in statements only.) *)
Fixpoint hasChar (c : ascii) (s : string) : bool :=
  match s with
  | EmptyString => false
  | String a s' => Ascii.eqb a c || hasChar c s'
  end.

End JS.

(** ** src/zip.ts: [deduplicateFilenames] *)

Definition Buffer := list Byte.byte.

Record FileEntry := mkFileEntry { filename : string; data : Buffer }.

Definition dot : ascii := "."%char.

(** The name given to an entry whose original name has been seen [count]
    times before (body of the [for] loop, lines 21-36). *)
Definition finalNameOf (name : string) (count : nat) : string :=
  if (0 <? count)%nat then
    let lastDotIndex := JS.lastIndexOf dot name in
    if 0 <? lastDotIndex then
      let name' := JS.slice name 0 lastDotIndex in
      let ext := JS.sliceFrom name lastDotIndex in
      name' +:+ "_" +:+ JS.numToString (Z.of_nat count) +:+ ext
    else
      name +:+ "_" +:+ JS.numToString (Z.of_nat count)
  else name.

(** One iteration of the loop over [files]: the state is the pair
    ([seenNames], [result]). *)
Definition dedupStep (st : gmap string nat * list FileEntry) (file : FileEntry)
  : gmap string nat * list FileEntry :=
  let '(seenNames, result) := st in
  let count := default 0%nat (seenNames !! filename file) in
  let finalName := finalNameOf (filename file) count in
  (<[filename file := S count]> seenNames,
   result ++ [mkFileEntry finalName (data file)]).

Definition deduplicateFilenames (files : list FileEntry) : list FileEntry :=
  snd (fold_left dedupStep files (∅, [])).

Definition names (files : list FileEntry) : list string := filename <$> files.

(** Number of times [n] occurs in a list of names. *)
Fixpoint occurrences (n : string) (l : list string) : nat :=
  match l with
  | [] => 0
  | x :: l' => (if decide (x = n) then 1 else 0) + occurrences n l'
  end%nat.

Definition fe (n : string) (d : Buffer) : FileEntry := mkFileEntry n d.

(** The list the loop appends to [result] when it starts from the counter
    table [seen]. *)
Fixpoint dedupFrom (seen : gmap string nat) (files : list FileEntry)
  : list FileEntry :=
  match files with
  | [] => []
  | file :: rest =>
      let count := default 0%nat (seen !! filename file) in
      mkFileEntry (finalNameOf (filename file) count) (data file)
        :: dedupFrom (<[filename file := S count]> seen) rest
  end.

(** ** src/zip.ts: [createZip] *)

(** The part of the JSZip library that [createZip] calls: a fresh archive
    object, [zip.file(name, data)] and [zip.generateAsync(...)].  [extract]
    stands for reading one named entry back out of a generated buffer; it is
    what the round-trip property of the specification talks about. *)
Class ZipLibrary := {
  JSZip : Type;
  newZip : JSZip;
  zipFile : string → Buffer → JSZip → JSZip;
  generateAsync : JSZip → Buffer;
  extract : Buffer → string → option Buffer;
}.

Definition createZip `{ZipLibrary} (files : list FileEntry) : Buffer :=
  let zip := newZip in
  let uniqueFiles := deduplicateFilenames files in
  let zip :=
    fold_left (λ zip file, zipFile (filename file) (data file) zip)
              uniqueFiles zip in
  generateAsync zip.

(** "For any entry added, extracting that entry's name from the produced
    container returns exactly the bytes supplied." *)
Definition roundTrips `{ZipLibrary} (files : list FileEntry) : Prop :=
  ∀ i f g,
    files !! i = Some f →
    deduplicateFilenames files !! i = Some g →
    extract (createZip files) (filename g) = Some (data f).

(** ** gmail.ts: the retry wrapper *)

(** A rejected promise: an [Error] object with an optional numeric [code]. *)
Record RemoteError := mkError { code : option Z; message : string }.

(** [new Error(msg)] carries no status code. *)
Definition newError (msg : string) : RemoteError := mkError None msg.

Inductive Outcome (A : Type) :=
| Resolved (v : A)
| Rejected (e : RemoteError).
Arguments Resolved {A} v.
Arguments Rejected {A} e.

(** What a run does besides returning: calls of the operation, warnings
    printed with [console.warn], and suspensions through [Bun.sleep]. *)
Inductive Event :=
| Invoked
| Warned (msg : string)
| Slept (ms : Z).

(** Computations over the operation's private state [S] that may reject and
    that log their events. *)
Definition Run (S A : Type) : Type := S → Outcome A * S * list Event.

Definition throw {S A} (e : RemoteError) : Run S A := λ s, (Rejected e, s, []).

Definition after {S A} (t : list Event) (r : Outcome A * S * list Event)
  : Outcome A * S * list Event :=
  (r.1.1, r.1.2, t ++ r.2).

#[export] Instance run_ret {S} : MRet (Run S) := λ A a s, (Resolved a, s, []).

#[export] Instance run_bind {S} : MBind (Run S) :=
  λ A B k m s,
    match m s with
    | (Resolved a, s', t) => after t (k a s')
    | (Rejected e, s', t) => (Rejected e, s', t)
    end.

Definition tryCatch {S A} (m : Run S A) (handler : RemoteError → Run S A)
  : Run S A :=
  λ s, match m s with
       | (Resolved a, s', t) => (Resolved a, s', t)
       | (Rejected e, s', t) => after t (handler e s')
       end.

Definition consoleWarn {S} (msg : string) : Run S unit :=
  λ s, (Resolved tt, s, [Warned msg]).

Definition bunSleep {S} (ms : Z) : Run S unit :=
  λ s, (Resolved tt, s, [Slept ms]).

(** One call of the zero-argument [operation]: a closure that may read and
    update its own state. *)
Definition invoke {S A} (operation : S → Outcome A * S) : Run S A :=
  λ s, let '(r, s') := operation s in (r, s', [Invoked]).

(** [statusCode === n] on an optional number. *)
Definition codeIs (statusCode : option Z) (n : Z) : bool :=
  match statusCode with
  | Some k => k =? n
  | None => false
  end.

(** [statusCode === 429 || (statusCode && statusCode >= 500)]. *)
Definition retryable (statusCode : option Z) : bool :=
  codeIs statusCode 429
  || match statusCode with
     | Some k => negb (k =? 0) && (500 <=? k)
     | None => false
     end.

(** The codes the wrapper neither rewrites nor retries. *)
Definition unclassified (c : option Z) : Prop :=
  match c with
  | None => True
  | Some k => k ≠ 400 ∧ k ≠ 404 ∧ k ≠ 429 ∧ k < 500
  end.

(** [Math.pow(2, attempt) * 1000], which is exact in double precision for
    the attempts 0 to 1014; from attempt 1015 on the product is [Infinity],
    which this definition does not model. *)
Definition backoffDelay (attempt : Z) : Z := 2 ^ attempt * 1000.

(** [lastError?.message] inside a template literal. *)
Definition lastMessage (lastError : option RemoteError) : string :=
  match lastError with
  | Some e => message e
  | None => "undefined"
  end.

Definition notFoundMessage (context : string) : string :=
  context +:+ ": Resource not found (may have been deleted)".

Definition invalidRequestMessage (context original : string) : string :=
  context +:+ ": Invalid request - " +:+ original.

Definition retryWarning (context : string) (attempt maxRetries : Z) : string :=
  context +:+ ": Retrying in " +:+ JS.numToString (backoffDelay attempt)
          +:+ "ms (attempt " +:+ JS.numToString (attempt + 1) +:+ "/"
          +:+ JS.numToString maxRetries +:+ ")".

Definition exhaustedMessage (context : string) (maxRetries : Z)
    (lastError : option RemoteError) : string :=
  context +:+ ": Failed after " +:+ JS.numToString maxRetries
          +:+ " attempts - " +:+ lastMessage lastError.

Section WithRetry.

Context {S T : Type}.
Variable operation : S → Outcome T * S.
Variable context : string.
Variable maxRetries : Z.

(** The [for] loop with [remaining] iterations left to run, that is
    [remaining = max 0 (maxRetries - attempt)]. *)
Fixpoint retryLoop (remaining : nat) (attempt : Z)
    (lastError : option RemoteError) : Run S T :=
  match remaining with
  | O => throw (newError (exhaustedMessage context maxRetries lastError))
  | Datatypes.S remaining' =>
      tryCatch (invoke operation) (λ error,
        let statusCode := code error in
        if codeIs statusCode 404 then
          throw (newError (notFoundMessage context))
        else if codeIs statusCode 400 then
          throw (newError (invalidRequestMessage context (message error)))
        else if retryable statusCode then
          let delay := backoffDelay attempt in
          consoleWarn (retryWarning context attempt maxRetries) ;;
          bunSleep delay ;;
          retryLoop remaining' (attempt + 1) (Some error)
        else
          throw error)
  end.

Definition withRetry : Run S T :=
  retryLoop (Z.to_nat maxRetries) 0 None.

(** The state of the operation after [k] calls, and the outcome of call
    number [k] (counted from 0), when it is called repeatedly from [s]. *)
Fixpoint stateAfter (s : S) (k : nat) : S :=
  match k with
  | O => s
  | Datatypes.S k' => stateAfter (operation s).2 k'
  end.

Definition nthOutcome (s : S) (k : nat) : Outcome T :=
  (operation (stateAfter s k)).1.

(** [lastError] after [k] failed attempts starting from state [s]. *)
Definition lastErrorAfter (last : option RemoteError) (s : S) (k : nat)
  : option RemoteError :=
  match k with
  | O => last
  | Datatypes.S k' =>
      match nthOutcome s k' with
      | Rejected e => Some e
      | Resolved _ => last
      end
  end.

(** The first [k] calls from [s] all reject with a retryable code. *)
Definition retryableUpTo (s : S) (k : nat) : Prop :=
  ∀ j, (j < k)%nat → ∃ e, nthOutcome s j = Rejected e ∧ retryable (code e) = true.

(** The events of [k] consecutive attempts that each fail with a
    retryable code, the first of them being attempt number [attempt]. *)
Fixpoint backoffEvents (attempt : Z) (k : nat) : list Event :=
  match k with
  | O => []
  | Datatypes.S k' =>
      [Invoked; Warned (retryWarning context attempt maxRetries);
       Slept (backoffDelay attempt)]
      ++ backoffEvents (attempt + 1) k'
  end.

End WithRetry.

(** Every call of the operation rejects, each time with a code that
    satisfies [P]. *)
Definition alwaysFails {S T} (operation : S → Outcome T * S) (s : S)
    (P : option Z → Prop) : Prop :=
  ∀ k, ∃ e, nthOutcome operation s k = Rejected e ∧ P (code e).

(** Observations on a finished run. *)
Definition outcomeOf {S A} (r : Outcome A * S * list Event) : Outcome A := r.1.1.

Definition traceOf {S A} (r : Outcome A * S * list Event) : list Event := r.2.

Fixpoint invocations (t : list Event) : nat :=
  match t with
  | [] => 0
  | Invoked :: t' => Datatypes.S (invocations t')
  | _ :: t' => invocations t'
  end.

Fixpoint delays (t : list Event) : list Z :=
  match t with
  | [] => []
  | Slept ms :: t' => ms :: delays t'
  | _ :: t' => delays t'
  end.


(** An operation with no state that rejects with the same error each time. *)
Definition alwaysRejects (e : RemoteError) : unit → Outcome string * unit :=
  λ _, (Rejected e, tt).

(** An operation that rejects with [e] on its first call and resolves to
    [v] afterwards; its state is the number of calls made so far. *)
Definition failsOnce (e : RemoteError) (v : string) : nat → Outcome string * nat :=
  λ attempts,
    (if (attempts =? 0)%nat then Rejected e else Resolved v, Datatypes.S attempts).

Definition rateLimited : RemoteError := mkError (Some 429) "Rate limited".
Definition serverError : RemoteError := mkError (Some 500) "Server error".
Definition notFound : RemoteError := mkError (Some 404) "Not found".
Definition badRequest : RemoteError := mkError (Some 400) "Bad request".
Definition unknownError : RemoteError := mkError None "Unknown error".
Definition forbidden : RemoteError := mkError (Some 403) "Forbidden".

(** What one iteration of the loop of [withRetry] makes of an outcome that
    it does not retry: a value is returned, 404 and 400 are rewritten, any
    other error is thrown again as it is. *)
Definition settle {T} (context : string) (o : Outcome T) : Outcome T :=
  match o with
  | Resolved v => Resolved v
  | Rejected e =>
      if codeIs (code e) 404 then Rejected (newError (notFoundMessage context))
      else if codeIs (code e) 400 then
        Rejected (newError (invalidRequestMessage context (message e)))
      else Rejected e
  end.

(** An outcome after which the loop does not go round again. *)
Definition stops {T} (o : Outcome T) : Prop :=
  match o with
  | Resolved _ => True
  | Rejected e => retryable (code e) = false
  end.


(** ** More JavaScript primitives *)

Module JSValue.

(** [s.startsWith(p)]. *)
Definition startsWith (p s : string) : bool := String.prefix p s.

(** [s.includes(sub)]: [sub] occurs somewhere in [s]. *)
Fixpoint includes (sub s : string) : bool :=
  String.prefix sub s
  || match s with
     | EmptyString => false
     | String _ s' => includes sub s'
     end.

(** Truthiness of an optional string: [undefined] and [""] are falsy. *)
Definition truthy (o : option string) : bool :=
  match o with
  | Some (String _ _) => true
  | _ => false
  end.

(** [o || d] on an optional string and on an optional number. *)
Definition strOr (o : option string) (d : string) : string :=
  match o with
  | Some (String a s) => String a s
  | _ => d
  end.

Definition numOr (o : option Z) (d : Z) : Z :=
  match o with
  | Some n => if n =? 0 then d else n
  | None => d
  end.

(** The double-quote character, as it appears inside template literals. *)
Definition dquote : string := String (ascii_of_nat 34) EmptyString.

End JSValue.

(** ** gmail.ts: attachments of a message *)

(** [gmail_v1.Schema$MessagePartBody], [gmail_v1.Schema$MessagePart] and
    [gmail_v1.Schema$Message], with the fields the module reads. *)
Module MessagePartBody.
Record t := mk { attachmentId : option string; size : option Z }.
End MessagePartBody.

Module MessagePart.
#[warnings="-register-all"]
Inductive t := mk {
  filename : option string;
  mimeType : option string;
  body : option MessagePartBody.t;
  parts : option (list t);
}.
End MessagePart.

Module Message.
Record t := mk { payload : option MessagePart.t }.
End Message.

Module AttachmentInfo.
Record t := mk {
  attachmentId : string;
  filename : string;
  mimeType : string;
  size : Z;
  messageId : string;
}.
End AttachmentInfo.

(** [part.body?.attachmentId]. *)
Definition bodyAttachmentId (part : MessagePart.t) : option string :=
  MessagePart.body part ≫= MessagePartBody.attachmentId.

(** [part.body.size]. *)
Definition bodySize (part : MessagePart.t) : option Z :=
  MessagePart.body part ≫= MessagePartBody.size.

(** The test of line 425:
    [part.filename && part.filename.length > 0 && part.body?.attachmentId]. *)
Definition isAttachment (part : MessagePart.t) : bool :=
  JSValue.truthy (MessagePart.filename part)
  && (0 <? Z.of_nat (String.length (default ""%string (MessagePart.filename part))))
  && JSValue.truthy (bodyAttachmentId part).

(** The object pushed at lines 426-432 (and returned at lines 466-472). *)
Definition infoOf (messageId : string) (part : MessagePart.t) : AttachmentInfo.t :=
  {| AttachmentInfo.attachmentId := default ""%string (bodyAttachmentId part);
     AttachmentInfo.filename := default ""%string (MessagePart.filename part);
     AttachmentInfo.mimeType :=
       JSValue.strOr (MessagePart.mimeType part) "application/octet-stream";
     AttachmentInfo.size := JSValue.numOr (bodySize part) 0;
     AttachmentInfo.messageId := messageId |}.

(** One round of the [for] loop of [extractAttachments]: the part itself,
    then, recursively, its nested parts. *)
Fixpoint extractPart (messageId : string) (part : MessagePart.t)
  : list AttachmentInfo.t :=
  (if isAttachment part then [infoOf messageId part] else [])
  ++ match MessagePart.parts part with
     | Some nested => flat_map (extractPart messageId) nested
     | None => []
     end.

Definition extractAttachments (parts : option (list MessagePart.t))
    (messageId : string) : list AttachmentInfo.t :=
  match parts with
  | None => []
  | Some parts => flat_map (extractPart messageId) parts
  end.

(** [p] is one of [parts] or is nested, at any depth, in one of them. *)
Inductive partOf (p : MessagePart.t) : list MessagePart.t → Prop :=
| partOf_here parts : p ∈ parts → partOf p parts
| partOf_nested q nested parts :
    q ∈ parts → MessagePart.parts q = Some nested → partOf p nested →
    partOf p parts.

Definition fetchContext (messageId : string) : string :=
  "Fetching message " +:+ messageId.

(** The test of line 464:
    [message.payload?.body?.attachmentId && message.payload.filename]. *)
Definition isSinglePart (message : Message.t) : bool :=
  JSValue.truthy (Message.payload message ≫= bodyAttachmentId)
  && JSValue.truthy (Message.payload message ≫= MessagePart.filename).

(** What [getMessageAttachments] makes of the message it has fetched. *)
Definition attachmentsOfMessage (message : Message.t) (messageId : string)
  : list AttachmentInfo.t :=
  if isSinglePart message then
    match Message.payload message with
    | Some payload => [infoOf messageId payload]
    | None => []
    end
  else
    extractAttachments (Message.payload message ≫= MessagePart.parts) messageId.

(** [get messageId] stands for
    [gmail.users.messages.get({userId: "me", id: messageId, format: "full"})]
    and resolves to the [data] of the response. *)
Definition getMessageAttachments {S}
    (get : string → S → Outcome Message.t * S) (messageId : string)
  : Run S (list AttachmentInfo.t) :=
  message ← withRetry (get messageId) (fetchContext messageId) 3;
  mret (attachmentsOfMessage message messageId).

(** ** gmail.ts: search with pagination *)

Module MessageRef.
Record t := mk { id : option string }.
End MessageRef.

Module ListResponse.
Record t := mk {
  messages : option (list MessageRef.t);
  nextPageToken : option string;
}.
End ListResponse.

Definition searchContext (query : string) : string :=
  "Searching messages with query " +:+ JSValue.dquote +:+ query
  +:+ JSValue.dquote.

(** The ids pushed by the inner [for] loop (lines 401-406): the messages of
    the page ([[]] when absent) that have a non-empty id. *)
Definition idsOfPage (response : ListResponse.t) : list string :=
  omap (λ message,
          if JSValue.truthy (MessageRef.id message)
          then MessageRef.id message else None)
       (default [] (ListResponse.messages response)).

Section SearchMessages.

Context {S : Type}.

(** [listMessages query pageToken] stands for
    [gmail.users.messages.list({userId: "me", q: query, pageToken,
    maxResults: 100})] and resolves to the [data] of the response. *)
Variable listMessages : string → option string → S → Outcome ListResponse.t * S.
Variable query : string.

(** The [do ... while (pageToken)] loop; [fuel] bounds the number of pages
    fetched, and [None] is the answer when it runs out. *)
Fixpoint searchLoop (fuel : nat) (pageToken : option string)
    (messageIds : list string) : Run S (option (list string)) :=
  match fuel with
  | O => mret None
  | Datatypes.S fuel' =>
      response ← withRetry (listMessages query pageToken) (searchContext query) 3;
      let messageIds := messageIds ++ idsOfPage response in
      let pageToken := ListResponse.nextPageToken response in
      if JSValue.truthy pageToken
      then searchLoop fuel' pageToken messageIds
      else mret (Some messageIds)
  end.

Definition searchMessages (fuel : nat) : Run S (option (list string)) :=
  searchLoop fuel None [].

(** The server answers the requests made from state [s] with page token
    [pageToken] by the pages [pages], the last of which carries no token,
    and ends in state [s']. *)
Inductive serves : S → option string → list ListResponse.t → S → Prop :=
| serves_last s pageToken response s' :
    listMessages query pageToken s = (Resolved response, s') →
    JSValue.truthy (ListResponse.nextPageToken response) = false →
    serves s pageToken [response] s'
| serves_more s pageToken response s' pages s'' :
    listMessages query pageToken s = (Resolved response, s') →
    JSValue.truthy (ListResponse.nextPageToken response) = true →
    serves s' (ListResponse.nextPageToken response) pages s'' →
    serves s pageToken (response :: pages) s''.

End SearchMessages.

(** ** gmail.ts: download of one attachment *)

Definition downloadContext (filename messageId : string) : string :=
  "Downloading attachment " +:+ JSValue.dquote +:+ filename
  +:+ JSValue.dquote +:+ " from message " +:+ messageId.

Definition noDataMessage (filename messageId : string) : string :=
  "No data in attachment " +:+ JSValue.dquote +:+ filename
  +:+ JSValue.dquote +:+ " from message " +:+ messageId.

Section DownloadAttachment.

Context {S : Type}.

(** [getAttachment messageId attachmentId] stands for
    [gmail.users.messages.attachments.get({userId: "me", messageId,
    id: attachmentId})] and resolves to [response.data.data]. *)
Variable getAttachment : string → string → S → Outcome (option string) * S.

(** [Buffer.from(data, "base64url")], a function of the Node runtime. *)
Variable base64urlDecode : string → Buffer.

Definition downloadAttachment (messageId attachmentId filename : string)
  : Run S FileEntry :=
  data ← withRetry (getAttachment messageId attachmentId)
                   (downloadContext filename messageId) 3;
  if JSValue.truthy data then
    mret (mkFileEntry filename (base64urlDecode (default ""%string data)))
  else
    throw (newError (noDataMessage filename messageId)).

End DownloadAttachment.

(** ** index.ts: how [main] reads error messages *)

(** The test of lines 169 and 216:
    [msg.includes("not found") || msg.includes("deleted")]; when it holds
    the message or attachment is skipped with a warning. *)
Definition isNotFoundMessage (msg : string) : bool :=
  JSValue.includes "not found" msg || JSValue.includes "deleted" msg.

(** The exit code after a failed search (lines 129-135). *)
Definition EXIT_USER_ERROR : Z := 1.
Definition EXIT_API_ERROR : Z := 3.

Definition searchFailureExitCode (msg : string) : Z :=
  if JSValue.includes "Invalid request" msg then EXIT_USER_ERROR
  else EXIT_API_ERROR.

(** ** index.ts: [parseArgs] and [formatBytes] *)

Module ParsedArgs.
Record t := mk { query : string; output : string; help : bool }.
End ParsedArgs.

(** [console.error(message); process.exit(code)]. *)
Definition Exit : Type := string * Z.

(** The [while] loop of [parseArgs] over the arguments from index [i] on;
    [args] is the list of the arguments not yet read. *)
Fixpoint parseLoop (result : ParsedArgs.t) (args : list string)
  : ParsedArgs.t + Exit :=
  match args with
  | [] => inl result
  | arg :: rest =>
      if (arg =? "-h")%string || (arg =? "--help")%string then
        parseLoop (ParsedArgs.mk (ParsedArgs.query result)
                     (ParsedArgs.output result) true) rest
      else if (arg =? "-o")%string || (arg =? "--output")%string then
        match rest with
        | [] =>
            inr ("Error: -o/--output requires a filename argument"%string,
                 EXIT_USER_ERROR)
        | value :: rest' =>
            parseLoop (ParsedArgs.mk (ParsedArgs.query result) value
                         (ParsedArgs.help result)) rest'
        end
      else if JSValue.startsWith "-" arg then
        inr ("Error: Unknown option " +:+ JSValue.dquote +:+ arg
             +:+ JSValue.dquote, EXIT_USER_ERROR)
      else
        parseLoop (ParsedArgs.mk arg (ParsedArgs.output result)
                     (ParsedArgs.help result)) rest
  end.

Definition parseArgs (args : list string) : ParsedArgs.t + Exit :=
  parseLoop (ParsedArgs.mk "" "attachments.zip" false) args.

(** [(num / den).toFixed(1)] for safe integers [0 <= num < 2^53] and a
    power of two [den]: the quotient is then exact in double precision and
    below 10^21, and [toFixed] prints the integer [n] nearest to ten times
    the quotient, the larger one on a tie, with one decimal.  Outside that
    range ([toFixed] switches to exponent notation from 10^21) the
    definition does not stand for the source. *)
Definition toFixed1 (num den : Z) : string :=
  let n := (20 * num + den) / (2 * den) in
  JS.numToString (n / 10) +:+ "." +:+ JS.numToString (n mod 10).

Definition formatBytes (bytes : Z) : string :=
  if bytes <? 1024 then JS.numToString bytes +:+ " B"
  else if bytes <? 1024 * 1024 then toFixed1 bytes 1024 +:+ " KB"
  else toFixed1 bytes (1024 * 1024) +:+ " MB".

(** ** zip.ts: [writeZipToFile] *)

(** A [NodeJS.ErrnoException]. *)
Module Errno.
Record t := mk { code : option string; message : string }.
End Errno.

Section WriteZipToFile.

Context {S : Type}.

(** [exists(path)] of node:fs/promises and [Bun.write(path, buffer)] on a
    file system in state [S]; [Bun.write] either succeeds or throws. *)
Variable fileExists : string → S → bool.
Variable bunWrite : string → Buffer → S → option Errno.t * S.

Definition overwriteWarning (outputPath : string) : string :=
  "Warning: Overwriting existing file: " +:+ outputPath.

Definition writeFailure (outputPath : string) (err : Errno.t) : string :=
  if decide (Errno.code err = Some "EACCES"%string
             ∨ Errno.code err = Some "EPERM"%string) then
    "Permission denied: Cannot write to " +:+ JSValue.dquote +:+ outputPath
    +:+ JSValue.dquote +:+ ". Check file/directory permissions."
  else if decide (Errno.code err = Some "ENOSPC"%string) then
    "Disk full: Not enough space to write " +:+ JSValue.dquote +:+ outputPath
    +:+ JSValue.dquote +:+ "."
  else if decide (Errno.code err = Some "EROFS"%string) then
    "Read-only filesystem: Cannot write to " +:+ JSValue.dquote +:+ outputPath
    +:+ JSValue.dquote +:+ "."
  else
    "Failed to write ZIP file to " +:+ JSValue.dquote +:+ outputPath
    +:+ JSValue.dquote +:+ ": " +:+ Errno.message err.

(** The result, the file system afterwards, and the warnings printed. *)
Definition writeZipToFile (zipBuffer : Buffer) (outputPath : string) (s : S)
  : Outcome string * S * list string :=
  let warnings :=
    if fileExists outputPath s then [overwriteWarning outputPath] else [] in
  match bunWrite outputPath zipBuffer s with
  | (None, s') => (Resolved outputPath, s', warnings)
  | (Some err, s') =>
      (Rejected (newError (writeFailure outputPath err)), s', warnings)
  end.

End WriteZipToFile.

(** ** auth.ts: [refreshTokenIfNeeded] *)

(** [Credentials] of google-auth-library. *)
Module Credentials.
Record t := mk {
  refresh_token : option string;
  expiry_date : option Z;
  access_token : option string;
  token_type : option string;
  id_token : option string;
  scope : option string;
}.
End Credentials.

Inductive AuthEvent :=
| SetCredentials (token : Credentials.t)
| Logged (msg : string)
| RefreshRequested
| WriteRequested (token : Credentials.t).

Section RefreshTokenIfNeeded.

Context {S : Type}.

(** [oAuth2Client.refreshAccessToken()], resolving to the [credentials] of
    its answer, and the [Bun.write] of [saveToken], on a state [S] that
    stands for the client and the file system. *)
Variable refreshAccessToken : S → Outcome Credentials.t * S.
Variable writeToken : Credentials.t → S → Outcome unit * S.

(** [Date.now()]. *)
Variable now : Z.

(** [saveToken]: write the file, then log. *)
Definition saveToken (token : Credentials.t) (s : S)
  : Outcome unit * S * list AuthEvent :=
  match writeToken token s with
  | (Resolved _, s') =>
      (Resolved tt, s', [WriteRequested token; Logged "Token saved to token.json"])
  | (Rejected e, s') => (Rejected e, s', [WriteRequested token])
  end.

(** [expiryDate && expiryDate - now < bufferMs]. *)
Definition expiresSoon (token : Credentials.t) : bool :=
  match Credentials.expiry_date token with
  | Some expiryDate =>
      negb (expiryDate =? 0) && (expiryDate - now <? 5 * 60 * 1000)
  | None => false
  end.

(** Lines 269-271: keep the old refresh token when the new credentials
    bring none. *)
Definition preserveRefreshToken (token credentials : Credentials.t)
  : Credentials.t :=
  if negb (JSValue.truthy (Credentials.refresh_token credentials))
     && JSValue.truthy (Credentials.refresh_token token)
  then Credentials.mk (Credentials.refresh_token token)
         (Credentials.expiry_date credentials)
         (Credentials.access_token credentials)
         (Credentials.token_type credentials)
         (Credentials.id_token credentials)
         (Credentials.scope credentials)
  else credentials.

Definition refreshFailedLog : string :=
  "Failed to refresh token, re-authorization required.".

Definition refreshTokenIfNeeded (token : Credentials.t) (s : S)
  : Outcome Credentials.t * S * list AuthEvent :=
  if expiresSoon token then
    if JSValue.truthy (Credentials.refresh_token token) then
      match refreshAccessToken s with
      | (Resolved credentials, s1) =>
          let credentials := preserveRefreshToken token credentials in
          match saveToken credentials s1 with
          | (Resolved _, s2, saved) =>
              (Resolved credentials, s2,
               [SetCredentials token; Logged "Token expired, refreshing...";
                RefreshRequested] ++ saved)
          | (Rejected e, s2, saved) =>
              (Rejected e, s2,
               [SetCredentials token; Logged "Token expired, refreshing...";
                RefreshRequested] ++ saved ++ [Logged refreshFailedLog])
          end
      | (Rejected e, s1) =>
          (Rejected e, s1,
           [SetCredentials token; Logged "Token expired, refreshing...";
            RefreshRequested; Logged refreshFailedLog])
      end
    else
      (Rejected (newError "Token expired and no refresh token available."), s,
       [SetCredentials token])
  else (Resolved token, s, [SetCredentials token]).

End RefreshTokenIfNeeded.

(** ** index.ts: the two loops of [main] *)

(** What [main] prints, and the events of the retry wrapper under it. *)
Inductive Printed :=
| Api (e : Event)
| StdoutWrite (text : string)
| ConsoleWarn (text : string)
| ConsoleError (text detail : string).

(** Carriage return, line feed and escape, as written in the literals. *)
Definition CR : string := String (ascii_of_nat 13) EmptyString.
Definition LF : string := String (ascii_of_nat 10) EmptyString.
Definition ESC : string := String (ascii_of_nat 27) EmptyString.

Definition printedBefore {S A} (t : list Printed) (r : A * S * list Printed)
  : A * S * list Printed :=
  (r.1.1, r.1.2, t ++ r.2).

Section MainLoops.

Context {S : Type}.
Variable get : string → S → Outcome Message.t * S.
Variable getAttachment : string → string → S → Outcome (option string) * S.
Variable base64urlDecode : string → Buffer.

(** Lines 156-181: collect the attachment metadata of the messages from
    index [i] on, [total] being [messageIds.length]; the result is the
    list collected, or the code given to [process.exit]. *)
Fixpoint scanLoop (total i : nat) (messageIds : list string)
    (allAttachments : list AttachmentInfo.t) (s : S)
  : (list AttachmentInfo.t + Z) * S * list Printed :=
  match messageIds with
  | [] => (inl allAttachments, s, [])
  | messageId :: rest =>
      match getMessageAttachments get messageId s with
      | (Resolved attachments, s', t) =>
          let progress :=
            if ((Z.of_nat i + 1) mod 10 =? 0) || (Z.of_nat i =? Z.of_nat total - 1)
            then [StdoutWrite (CR +:+ "Scanned " +:+ JS.numToString (Z.of_nat i + 1)
                               +:+ "/" +:+ JS.numToString (Z.of_nat total)
                               +:+ " messages")]
            else [] in
          printedBefore ((Api <$> t) ++ progress)
            (scanLoop total (Datatypes.S i) rest (allAttachments ++ attachments) s')
      | (Rejected error, s', t) =>
          let msg := message error in
          if isNotFoundMessage msg then
            printedBefore
              ((Api <$> t)
               ++ [ConsoleWarn (LF +:+ "Warning: Message " +:+ messageId
                                +:+ " was not found (may have been deleted), skipping")])
              (scanLoop total (Datatypes.S i) rest allAttachments s')
          else
            (inr EXIT_API_ERROR, s',
             (Api <$> t)
             ++ [ConsoleError (LF +:+ "Failed to get attachments from message "
                               +:+ messageId +:+ ":") msg])
      end
  end.

Definition scanMessages (messageIds : list string) (s : S)
  : (list AttachmentInfo.t + Z) * S * list Printed :=
  scanLoop (length messageIds) 0 messageIds [] s.

(** Lines 198-225: download the attachments from index [i] on. *)
Fixpoint downloadLoop (total i : nat) (allAttachments : list AttachmentInfo.t)
    (files : list FileEntry) (s : S)
  : (list FileEntry + Z) * S * list Printed :=
  match allAttachments with
  | [] => (inl files, s, [])
  | att :: rest =>
      let progress :=
        [StdoutWrite (CR +:+ "Downloading [" +:+ JS.numToString (Z.of_nat i + 1)
                      +:+ "/" +:+ JS.numToString (Z.of_nat total) +:+ "]: "
                      +:+ AttachmentInfo.filename att);
         StdoutWrite (ESC +:+ "[K")] in
      match downloadAttachment getAttachment base64urlDecode
              (AttachmentInfo.messageId att) (AttachmentInfo.attachmentId att)
              (AttachmentInfo.filename att) s with
      | (Resolved file, s', t) =>
          printedBefore (progress ++ (Api <$> t))
            (downloadLoop total (Datatypes.S i) rest (files ++ [file]) s')
      | (Rejected error, s', t) =>
          let msg := message error in
          if isNotFoundMessage msg then
            printedBefore
              (progress ++ (Api <$> t)
               ++ [ConsoleWarn (LF +:+ "Warning: Attachment "
                                +:+ AttachmentInfo.filename att
                                +:+ " was not found, skipping")])
              (downloadLoop total (Datatypes.S i) rest files s')
          else
            (inr EXIT_API_ERROR, s',
             progress ++ (Api <$> t)
             ++ [ConsoleError (LF +:+ "Failed to download "
                               +:+ AttachmentInfo.filename att +:+ ":") msg])
      end
  end.

Definition downloadAll (allAttachments : list AttachmentInfo.t) (s : S)
  : (list FileEntry + Z) * S * list Printed :=
  downloadLoop (length allAttachments) 0 allAttachments [] s.

End MainLoops.

(** The calls of the remote operation among what was printed and done. *)
Fixpoint apiCalls (t : list Printed) : nat :=
  match t with
  | [] => 0
  | Api Invoked :: t' => Datatypes.S (apiCalls t')
  | _ :: t' => apiCalls t'
  end.

(** The attachments that message [messageId] contributes to the scan. *)
Definition contribution (answer : string → Outcome Message.t)
    (messageId : string) : list AttachmentInfo.t :=
  match answer messageId with
  | Resolved m => attachmentsOfMessage m messageId
  | Rejected _ => []
  end.

(** What attachment [att] contributes to the files to pack. *)
Definition downloaded (answer : string → string → Outcome (option string))
    (base64urlDecode : string → Buffer) (att : AttachmentInfo.t)
  : option FileEntry :=
  match answer (AttachmentInfo.messageId att) (AttachmentInfo.attachmentId att) with
  | Resolved (Some d) =>
      Some (mkFileEntry (AttachmentInfo.filename att) (base64urlDecode d))
  | _ => None
  end.

(** ** Sample servers and inputs *)

(** A message server on which the message "gone" has been deleted. *)
Definition answerMessage (messageId : string) : Outcome Message.t :=
  if (messageId =? "gone")%string then Rejected notFound
  else Resolved (Message.mk
                   (Some (MessagePart.mk (Some "report.pdf"%string) None
                            (Some (MessagePartBody.mk (Some "att1"%string)
                                     (Some 1024)))
                            None))).

(** An attachment server on which the attachment "gone" has been deleted. *)
Definition answerAttachment (messageId attachmentId : string)
  : Outcome (option string) :=
  if (attachmentId =? "gone")%string then Rejected notFound
  else Resolved (Some "aGVsbG8gd29ybGQ"%string).

(** A nested multipart message: an alternative part that wraps one
    attachment, a part without attachment id, and a top-level attachment
    without MIME type and size. *)
Definition nestedParts : list MessagePart.t :=
  [MessagePart.mk None (Some "multipart/alternative"%string) None
     (Some [MessagePart.mk (Some "nested.doc"%string)
              (Some "application/msword"%string)
              (Some (MessagePartBody.mk (Some "att_nested"%string) (Some 500)))
              None]);
   MessagePart.mk (Some "inline.txt"%string) (Some "text/plain"%string)
     (Some (MessagePartBody.mk None (Some 100))) None;
   MessagePart.mk (Some "top_level.bin"%string) None
     (Some (MessagePartBody.mk (Some "att_top"%string) None)) None].

(** A single-part message whose payload is itself an attachment. *)
Definition singlePartMessage : Message.t :=
  Message.mk
    (Some (MessagePart.mk (Some "single.txt"%string) (Some "text/plain"%string)
             (Some (MessagePartBody.mk (Some "att456"%string) (Some 100)))
             (Some nestedParts))).

(** A server with two pages; its state is the number of requests seen. *)
Definition twoPages (q : string) (pageToken : option string) (calls : nat)
  : Outcome ListResponse.t * nat :=
  (match pageToken with
   | None =>
       Resolved (ListResponse.mk
                   (Some [MessageRef.mk (Some "msg1"%string);
                          MessageRef.mk None;
                          MessageRef.mk (Some "msg2"%string)])
                   (Some "token123"%string))
   | Some _ =>
       Resolved (ListResponse.mk (Some [MessageRef.mk (Some "msg3"%string)]) None)
   end, Datatypes.S calls).

Definition sampleToken (expiry : option Z) (refreshToken : option string)
  : Credentials.t :=
  Credentials.mk refreshToken expiry (Some "old-token"%string) None None None.

(** Three entries, the last of which is named like the renamed second. *)
Definition clash : list FileEntry :=
  [fe "file.txt" [Byte.x01]; fe "file.txt" [Byte.x02];
   fe "file_1.txt" [Byte.x03]].

Example dedup_two :
  names (deduplicateFilenames [fe "file.txt" []; fe "file.txt" []])
  = ["file.txt"; "file_1.txt"]%string.
Proof. vm_compute. reflexivity. Qed.

Example dedup_pdf :
  names (deduplicateFilenames
           [fe "doc.pdf" []; fe "doc.pdf" []; fe "doc.pdf" []; fe "doc.pdf" []])
  = ["doc.pdf"; "doc_1.pdf"; "doc_2.pdf"; "doc_3.pdf"]%string.
Proof. vm_compute. reflexivity. Qed.

Example dedup_mixed :
  names (deduplicateFilenames
           [fe "a.txt" []; fe "b.txt" []; fe "a.txt" []; fe "c.txt" [];
            fe "a.txt" []; fe "README" []; fe "README" []; fe ".gitignore" [];
            fe ".gitignore" []])
  = ["a.txt"; "b.txt"; "a_1.txt"; "c.txt"; "a_2.txt"; "README"; "README_1";
     ".gitignore"; ".gitignore_1"]%string.
Proof. vm_compute. reflexivity. Qed.

Example retry_exhausted :
  withRetry (alwaysRejects rateLimited) "test operation" 3 tt
  = (Rejected (newError "test operation: Failed after 3 attempts - Rate limited"),
     tt,
     [Invoked; Warned "test operation: Retrying in 1000ms (attempt 1/3)"; Slept 1000;
      Invoked; Warned "test operation: Retrying in 2000ms (attempt 2/3)"; Slept 2000;
      Invoked; Warned "test operation: Retrying in 4000ms (attempt 3/3)"; Slept 4000]).
Proof. vm_compute. reflexivity. Qed.

Example retry_second_try :
  withRetry (failsOnce serverError "success") "test operation" 3 0%nat
  = (Resolved "success"%string, 2%nat,
     [Invoked; Warned "test operation: Retrying in 1000ms (attempt 1/3)"; Slept 1000;
      Invoked]).
Proof. vm_compute. reflexivity. Qed.

Example retry_not_found :
  withRetry (alwaysRejects notFound) "test operation" 3 tt
  = (Rejected (newError "test operation: Resource not found (may have been deleted)"),
     tt, [Invoked]).
Proof. vm_compute. reflexivity. Qed.

Example retry_unknown :
  withRetry (alwaysRejects unknownError) "test operation" 3 tt
  = (Rejected unknownError, tt, [Invoked]).
Proof. vm_compute. reflexivity. Qed.
(** ** Facts about the string primitives *)

Section StringFacts.

Lemma length_app (s t : string) :
  String.length (s +:+ t) = (String.length s + String.length t)%nat.
Proof. induction s as [|a s IH]; simpl; [done | by rewrite IH]. Qed.

Lemma substring_all (s : string) : substring 0 (String.length s) s = s.
Proof. induction s as [|a s IH]; simpl; [done | by rewrite IH]. Qed.

Lemma substring_prefix (s t : string) :
  substring 0 (String.length s) (s +:+ t) = s.
Proof.
  induction s as [|a s IH]; simpl.
  - by destruct t.
  - by rewrite IH.
Qed.

Lemma substring_suffix (s t : string) :
  substring (String.length s) (String.length t) (s +:+ t) = t.
Proof. induction s as [|a s IH]; simpl; [apply substring_all | done]. Qed.

Lemma lastIndexOf_absent c s :
  JS.hasChar c s = false → JS.lastIndexOf c s = -1.
Proof.
  induction s as [|a s IH]; simpl; [done |].
  intros [Ha Hs]%orb_false_iff. by rewrite (IH Hs), Ha.
Qed.

Lemma lastIndexOf_lower c s : -1 ≤ JS.lastIndexOf c s.
Proof.
  induction s as [|a s IH]; simpl; [lia |].
  destruct (0 <=? JS.lastIndexOf c s) eqn:E; [lia |].
  destruct (Ascii.eqb a c); lia.
Qed.

(** The index found is the position of the last occurrence. *)
Lemma lastIndexOf_split c stem rest :
  JS.hasChar c rest = false →
  JS.lastIndexOf c (stem +:+ String c rest) = Z.of_nat (String.length stem).
Proof.
  intros Hrest. induction stem as [|a stem IH]; simpl.
  - by rewrite (lastIndexOf_absent _ _ Hrest), Ascii.eqb_refl.
  - rewrite IH.
    destruct (0 <=? Z.of_nat (String.length stem)) eqn:E; lia.
Qed.

Lemma slice_stem stem t :
  JS.slice (stem +:+ t) 0 (Z.of_nat (String.length stem)) = stem.
Proof.
  unfold JS.slice. rewrite Z.sub_0_r, Nat2Z.id. apply substring_prefix.
Qed.

Lemma sliceFrom_ext stem t :
  JS.sliceFrom (stem +:+ t) (Z.of_nat (String.length stem)) = t.
Proof.
  unfold JS.sliceFrom, JS.slice. rewrite length_app, Nat2Z.id.
  replace (Z.to_nat _) with (String.length t) by lia.
  apply substring_suffix.
Qed.

End StringFacts.

(** ** The renaming rule *)

Lemma finalNameOf_first name : finalNameOf name 0 = name.
Proof. done. Qed.

Lemma finalNameOf_ext stem rest count :
  (0 < count)%nat → stem ≠ ""%string → JS.hasChar dot rest = false →
  finalNameOf (stem +:+ "." +:+ rest) count
  = stem +:+ "_" +:+ JS.numToString (Z.of_nat count) +:+ "." +:+ rest.
Proof.
  intros Hc Hstem Hrest. unfold finalNameOf.
  destruct (Nat.ltb_spec 0 count) as [_|]; [| lia].
  change ("." +:+ rest) with (String dot rest).
  rewrite (lastIndexOf_split dot stem rest Hrest).
  destruct (Z.ltb_spec 0 (Z.of_nat (String.length stem))) as [_|Hle].
  - by rewrite slice_stem, sliceFrom_ext.
  - destruct stem; [done | simpl in Hle; lia].
Qed.

Lemma finalNameOf_noext name count :
  (0 < count)%nat →
  JS.hasChar dot name = false
  ∨ (∃ rest, name = "." +:+ rest ∧ JS.hasChar dot rest = false) →
  finalNameOf name count = name +:+ "_" +:+ JS.numToString (Z.of_nat count).
Proof.
  intros Hc Hname. unfold finalNameOf.
  destruct (Nat.ltb_spec 0 count) as [_|]; [| lia].
  assert (JS.lastIndexOf dot name ≤ 0) as Hidx.
  { destruct Hname as [Hno | (rest & -> & Hrest)].
    - rewrite (lastIndexOf_absent _ _ Hno). lia.
    - change ("." +:+ rest) with ("" +:+ String dot rest).
      rewrite (lastIndexOf_split dot "" rest Hrest). simpl. lia. }
  by destruct (Z.ltb_spec 0 (JS.lastIndexOf dot name)); [lia |].
Qed.

(** ** The loop of [deduplicateFilenames] *)

Lemma fold_dedupStep files seen result :
  snd (fold_left dedupStep files (seen, result))
  = result ++ dedupFrom seen files.
Proof.
  revert seen result. induction files as [|file files IH]; intros seen result.
  - simpl. by rewrite app_nil_r.
  - simpl. rewrite IH. by rewrite <- app_assoc.
Qed.

Lemma deduplicateFilenames_unfold files :
  deduplicateFilenames files = dedupFrom ∅ files.
Proof. unfold deduplicateFilenames. by rewrite fold_dedupStep. Qed.

Lemma dedupFrom_length seen files :
  length (dedupFrom seen files) = length files.
Proof.
  revert seen. induction files as [|f files IH]; intros seen; simpl;
    [done | by rewrite IH].
Qed.

Lemma dedupFrom_data seen files :
  data <$> dedupFrom seen files = data <$> files.
Proof.
  revert seen. induction files as [|f files IH]; intros seen; simpl;
    [done | by rewrite IH].
Qed.

(** Loop invariant: when the loop reaches entry [i], the counter of its name
    is the initial counter plus the number of earlier entries of that name. *)
Lemma dedupFrom_lookup files seen i f :
  files !! i = Some f →
  dedupFrom seen files !! i
  = Some (mkFileEntry
            (finalNameOf (filename f)
               (default 0%nat (seen !! filename f)
                + occurrences (filename f) (take i (names files))))
            (data f)).
Proof.
  revert seen i. induction files as [|g files IH]; intros seen i Hi; [done |].
  destruct i as [|i]; simpl in *.
  - injection Hi as ->. by rewrite Nat.add_0_r.
  - rewrite (IH _ _ Hi). do 3 f_equal.
    destruct (decide (filename g = filename f)) as [Heq|Hne].
    + rewrite Heq, lookup_insert_eq. simpl. lia.
    + by rewrite lookup_insert_ne.
Qed.

Lemma deduplicateFilenames_length files :
  length (deduplicateFilenames files) = length files.
Proof. rewrite deduplicateFilenames_unfold. apply dedupFrom_length. Qed.

Lemma deduplicateFilenames_data files :
  data <$> deduplicateFilenames files = data <$> files.
Proof. rewrite deduplicateFilenames_unfold. apply dedupFrom_data. Qed.

Lemma deduplicateFilenames_lookup files i f :
  files !! i = Some f →
  deduplicateFilenames files !! i
  = Some (mkFileEntry
            (finalNameOf (filename f)
               (occurrences (filename f) (take i (names files))))
            (data f)).
Proof.
  intros Hi. rewrite deduplicateFilenames_unfold.
  by rewrite (dedupFrom_lookup _ _ _ _ Hi), lookup_empty.
Qed.

Lemma dedupFrom_fresh files seen :
  NoDup (names files) →
  (∀ n, n ∈ names files → seen !! n = None) →
  dedupFrom seen files = files.
Proof.
  revert seen. induction files as [|f files IH]; intros seen Hnd Hseen; [done |].
  unfold names in *. rewrite fmap_cons in Hnd, Hseen.
  apply NoDup_cons in Hnd as [Hf Hnd]. simpl.
  rewrite (Hseen (filename f)) by set_solver. simpl.
  rewrite IH; [by destruct f | done |].
  intros n Hn. rewrite lookup_insert_ne.
  - apply Hseen. by apply elem_of_cons; right.
  - intros Heq. apply Hf. by rewrite Heq.
Qed.

(** ** The retry loop *)

Section Observations.

Context {S A : Type}.
Implicit Types (r : Outcome A * S * list Event) (t : list Event).

Lemma after_nil r : after [] r = r.
Proof. by destruct r as [[o s] t]. Qed.

Lemma after_after t t' r : after t (after t' r) = after (t ++ t') r.
Proof. unfold after. simpl. by rewrite app_assoc. Qed.

Lemma outcomeOf_after t r : outcomeOf (after t r) = outcomeOf r.
Proof. done. Qed.

Lemma traceOf_after t r : traceOf (after t r) = t ++ traceOf r.
Proof. done. Qed.

Lemma invocations_app t t' :
  invocations (t ++ t') = (invocations t + invocations t')%nat.
Proof.
  induction t as [|[| |] t IH]; simpl; [done | by rewrite IH | done | done].
Qed.

Lemma delays_app t t' : delays (t ++ t') = delays t ++ delays t'.
Proof.
  induction t as [|[| |] t IH]; simpl; [done | done | done | by rewrite IH].
Qed.

End Observations.

Lemma retryable_not_permanent c :
  retryable c = true → codeIs c 404 = false ∧ codeIs c 400 = false.
Proof.
  destruct c as [k|]; [| done]. unfold retryable, codeIs.
  intros [H | [_ H]%andb_true_iff]%orb_true_iff; split; lia.
Qed.

Lemma unclassified_codes c :
  unclassified c →
  codeIs c 404 = false ∧ codeIs c 400 = false ∧ retryable c = false.
Proof.
  destruct c as [k|]; [| done]. unfold unclassified, retryable, codeIs.
  intros (? & ? & ? & ?). split_and!; lia.
Qed.

Section RetryFacts.

Context {S T : Type}.
Variable operation : S → Outcome T * S.
Variable context : string.
Variable maxRetries : Z.

#[local] Abbreviation loop := (retryLoop operation context maxRetries).
#[local] Abbreviation outcome := (nthOutcome operation).
#[local] Abbreviation state := (stateAfter operation).
#[local] Abbreviation events := (backoffEvents context maxRetries).

(** *** One iteration, by what the operation does *)

Lemma loop_resolved rem attempt last s v :
  outcome s 0 = Resolved v →
  loop (Datatypes.S rem) attempt last s = (Resolved v, state s 1, [Invoked]).
Proof.
  unfold nthOutcome. simpl. unfold tryCatch, invoke.
  destruct (operation s) as [o s']. simpl. by intros ->.
Qed.

Lemma loop_notFound rem attempt last s e :
  outcome s 0 = Rejected e → code e = Some 404 →
  loop (Datatypes.S rem) attempt last s
  = (Rejected (newError (notFoundMessage context)), state s 1, [Invoked]).
Proof.
  unfold nthOutcome. simpl. unfold tryCatch, invoke.
  destruct (operation s) as [o s']. simpl. intros -> Hc. by rewrite Hc.
Qed.

Lemma loop_badRequest rem attempt last s e :
  outcome s 0 = Rejected e → code e = Some 400 →
  loop (Datatypes.S rem) attempt last s
  = (Rejected (newError (invalidRequestMessage context (message e))),
     state s 1, [Invoked]).
Proof.
  unfold nthOutcome. simpl. unfold tryCatch, invoke.
  destruct (operation s) as [o s']. simpl. intros -> Hc. by rewrite Hc.
Qed.

Lemma loop_unclassified rem attempt last s e :
  outcome s 0 = Rejected e → unclassified (code e) →
  loop (Datatypes.S rem) attempt last s = (Rejected e, state s 1, [Invoked]).
Proof.
  unfold nthOutcome. simpl. unfold tryCatch, invoke.
  destruct (operation s) as [o s']. simpl.
  intros -> (H1 & H2 & H3)%unclassified_codes. by rewrite H1, H2, H3.
Qed.

Lemma loop_retry rem attempt last s e :
  outcome s 0 = Rejected e → retryable (code e) = true →
  loop (Datatypes.S rem) attempt last s
  = after (events attempt 1) (loop rem (attempt + 1) (Some e) (state s 1)).
Proof.
  unfold nthOutcome. simpl. unfold tryCatch, invoke.
  destruct (operation s) as [o s']. simpl.
  intros -> Hr. destruct (retryable_not_permanent _ Hr) as [H1 H2].
  rewrite H1, H2, Hr. unfold mbind, run_bind, consoleWarn, bunSleep.
  by rewrite !after_after.
Qed.

Lemma loop_exhausted attempt last s :
  loop 0 attempt last s
  = (Rejected (newError (exhaustedMessage context maxRetries last)), s, []).
Proof. done. Qed.

(** *** A run of retryable failures *)

Lemma retryableUpTo_tail s k :
  retryableUpTo operation s (Datatypes.S k) → retryableUpTo operation (state s 1) k.
Proof. intros H j Hj. apply (H (Datatypes.S j)). lia. Qed.

Lemma events_succ attempt k :
  events attempt (Datatypes.S k) = events attempt 1 ++ events (attempt + 1) k.
Proof. done. Qed.

Lemma loop_retries k : ∀ rem attempt last s,
  retryableUpTo operation s k →
  loop (k + rem) attempt last s
  = after (events attempt k)
      (loop rem (attempt + Z.of_nat k) (lastErrorAfter operation last s k) (state s k)).
Proof.
  induction k as [|k IH]; intros rem attempt last s Hk.
  - simpl. by rewrite after_nil, Z.add_0_r.
  - destruct (Hk 0%nat ltac:(lia)) as (e & He & Hr).
    change (Datatypes.S k + rem)%nat with (Datatypes.S (k + rem)).
    rewrite (loop_retry _ _ _ _ _ He Hr).
    rewrite (IH _ _ _ _ (retryableUpTo_tail _ _ Hk)).
    rewrite after_after, <- events_succ.
    replace (attempt + 1 + Z.of_nat k) with (attempt + Z.of_nat (Datatypes.S k))
      by lia.
    do 2 f_equal. destruct k as [|k]; simpl.
    + by rewrite He.
    + destruct (Hk (Datatypes.S k) ltac:(lia)) as (e' & He' & _).
      change (outcome (operation s).2 k) with (outcome s (Datatypes.S k)).
      by rewrite He'.
Qed.

Lemma invocations_events attempt k : invocations (events attempt k) = k.
Proof.
  revert attempt. induction k as [|k IH]; intros attempt; simpl;
    [done | by rewrite IH].
Qed.

Lemma delays_events attempt k :
  delays (events attempt k)
  = (λ i, backoffDelay (attempt + Z.of_nat i)) <$> seq 0 k.
Proof.
  revert attempt. induction k as [|k IH]; intros attempt; simpl; [done |].
  rewrite Z.add_0_r, IH. f_equal. rewrite <- fmap_S_seq, <- list_fmap_compose.
  apply list_fmap_ext. intros _ i _. simpl. f_equal. lia.
Qed.

End RetryFacts.

(** *** Runs that end by exhaustion *)

Lemma withRetry_exhausted {S T} (operation : S → Outcome T * S)
    (context : string) (maxRetries : Z) (s : S) :
  let n := Z.to_nat maxRetries in
  retryableUpTo operation s n →
  withRetry operation context maxRetries s
  = after (backoffEvents context maxRetries 0 n)
      (Rejected (newError (exhaustedMessage context maxRetries
                             (lastErrorAfter operation None s n))),
       stateAfter operation s n, []).
Proof.
  intros n Hn. unfold withRetry. fold n.
  rewrite <- (Nat.add_0_r n) at 1.
  by rewrite (loop_retries operation context maxRetries n 0%nat 0 None s Hn).
Qed.

(** * The claims *)

(** ** Filename de-duplication *)

(** C1. The output of [deduplicateFilenames] keeps the length and the
    payloads of its input in order, but its names are not always pairwise
    distinct: for the entries "file.txt", "file.txt", "file_1.txt" the code
    returns "file.txt", "file_1.txt", "file_1.txt", where the suffixed name
    generated for the second entry coincides with the original name of the
    third. *)
Theorem deduplicateFilenames_collision :
  length (deduplicateFilenames clash) = length clash
  ∧ data <$> deduplicateFilenames clash = data <$> clash
  ∧ names (deduplicateFilenames clash)
    = ["file.txt"; "file_1.txt"; "file_1.txt"]%string
  ∧ ¬ NoDup (names (deduplicateFilenames clash)).
Proof.
  split_and!; [done | done | done |].
  change (names (deduplicateFilenames clash))
    with ["file.txt"; "file_1.txt"; "file_1.txt"]%string.
  intros Hnd. apply NoDup_cons in Hnd as [_ Hnd].
  apply NoDup_cons in Hnd as [Hnot _]. apply Hnot. by left.
Qed.

(** C4. An entry whose original name already occurred [count > 0] times
    among the earlier entries is renamed by inserting "_count" before the
    last '.' of the name (the extension keeps its dot); a name without a
    '.', or whose only '.' is its first character, gets "_count" appended. *)
Theorem deduplicateFilenames_suffix (files : list FileEntry) (i : nat)
    (f : FileEntry) (count : nat) :
  files !! i = Some f →
  count = occurrences (filename f) (take i (names files)) →
  (0 < count)%nat →
  ∃ g, deduplicateFilenames files !! i = Some g
       ∧ data g = data f
       ∧ (∀ stem rest,
            filename f = stem +:+ "." +:+ rest →
            stem ≠ ""%string → JS.hasChar dot rest = false →
            filename g
            = stem +:+ "_" +:+ JS.numToString (Z.of_nat count) +:+ "." +:+ rest)
       ∧ (JS.hasChar dot (filename f) = false
          ∨ (∃ rest, filename f = "." +:+ rest ∧ JS.hasChar dot rest = false) →
          filename g
          = filename f +:+ "_" +:+ JS.numToString (Z.of_nat count)).
Proof.
  intros Hi -> Hcount. eexists. split; [by apply deduplicateFilenames_lookup |].
  simpl. set (c := occurrences _ _) in *. split_and!; [done | |].
  - intros stem rest Heq Hstem Hrest. rewrite Heq. by apply finalNameOf_ext.
  - intros Hname. by apply finalNameOf_noext.
Qed.

Lemma deduplicateFilenames_suffix_witness :
  ∃ g, deduplicateFilenames
         [fe "archive.tar.gz" [Byte.x01]; fe "archive.tar.gz" [Byte.x02]] !! 1%nat
       = Some g
       ∧ filename g = "archive.tar_1.gz"%string
       ∧ data g = [Byte.x02].
Proof.
  destruct (deduplicateFilenames_suffix
              [fe "archive.tar.gz" [Byte.x01]; fe "archive.tar.gz" [Byte.x02]]
              1 (fe "archive.tar.gz" [Byte.x02]) 1
              eq_refl eq_refl (le_n 1))
    as (g & Hg & Hdata & Hext & _).
  exists g. split_and!; [exact Hg | | exact Hdata].
  apply (Hext "archive.tar" "gz")%string; [reflexivity | discriminate | reflexivity].
Defined.

(** C10. Names are compared as raw strings: when the names of the input are
    pairwise distinct, every entry is returned as it is. *)
Theorem deduplicateFilenames_distinct (files : list FileEntry) :
  NoDup (names files) → deduplicateFilenames files = files.
Proof.
  intros Hnd. rewrite deduplicateFilenames_unfold.
  apply dedupFrom_fresh; [done |]. intros n _. apply lookup_empty.
Qed.

Lemma deduplicateFilenames_distinct_witness :
  deduplicateFilenames [fe "File.txt" [Byte.x01]; fe "file.txt" [Byte.x02]]
  = [fe "File.txt" [Byte.x01]; fe "file.txt" [Byte.x02]].
Proof.
  apply (deduplicateFilenames_distinct
           [fe "File.txt" [Byte.x01]; fe "file.txt" [Byte.x02]]).
  apply (bool_decide_unpack _). vm_compute. exact I.
Defined.

(** ** Archive packing *)

(** C8. [createZip] packs the output of [deduplicateFilenames], and for the
    entries "file.txt", "file.txt", "file_1.txt" with three different
    payloads no way of reading entries back by name can return the payload
    of every entry: the second and the third entry are stored under the same
    name "file_1.txt". *)
Theorem createZip_roundtrip_collision `{ZipLibrary} :
  createZip clash
  = generateAsync
      (fold_left (λ zip file, zipFile (filename file) (data file) zip)
                 (deduplicateFilenames clash) newZip)
  ∧ ¬ roundTrips clash.
Proof.
  split; [done |]. intros Hrt.
  pose proof (Hrt 1%nat (fe "file.txt" [Byte.x02])
                (fe "file_1.txt" [Byte.x02]) eq_refl eq_refl) as H2.
  pose proof (Hrt 2%nat (fe "file_1.txt" [Byte.x03])
                (fe "file_1.txt" [Byte.x03]) eq_refl eq_refl) as H3.
  simpl in H2, H3. rewrite H2 in H3. discriminate.
Qed.

(** ** The retry wrapper *)

Lemma alwaysFails_retryableUpTo {S T} (operation : S → Outcome T * S) s n :
  alwaysFails operation s (λ c, retryable c = true) →
  retryableUpTo operation s n.
Proof. intros H j _. apply H. Qed.

(** C2 (as the code has it). With [maxRetries = 1] and an operation that
    always rejects with a retryable code, the run is: the single call of
    the operation, then the warning, then one suspension of 1000 ms, and
    nothing else; after that the wrapper rejects with the exhaustion message
    built from the error of that call. *)
Theorem withRetry_single_attempt {S T} (operation : S → Outcome T * S)
    (context : string) (s : S) :
  alwaysFails operation s (λ c, retryable c = true) →
  ∃ e, nthOutcome operation s 0 = Rejected e
       ∧ outcomeOf (withRetry operation context 1 s)
         = Rejected (newError (context +:+ ": Failed after 1 attempts - "
                                       +:+ message e))
       ∧ invocations (traceOf (withRetry operation context 1 s)) = 1%nat
       ∧ delays (traceOf (withRetry operation context 1 s)) = [1000]
       ∧ traceOf (withRetry operation context 1 s)
         = [Invoked;
            Warned (context +:+ ": Retrying in 1000ms (attempt 1/1)");
            Slept 1000].
Proof.
  intros Hall. destruct (Hall 0%nat) as (e & He & _). exists e.
  rewrite (withRetry_exhausted operation context 1 s
             (alwaysFails_retryableUpTo _ _ _ Hall)).
  change (Z.to_nat 1) with 1%nat.
  rewrite outcomeOf_after, traceOf_after, invocations_app, delays_app.
  unfold lastErrorAfter. rewrite He. done.
Qed.

Lemma withRetry_single_attempt_witness :
  ∃ e, nthOutcome (alwaysRejects rateLimited) tt 0 = Rejected e
       ∧ outcomeOf (withRetry (alwaysRejects rateLimited) "test operation" 1 tt)
         = Rejected (newError ("test operation" +:+ ": Failed after 1 attempts - "
                                                +:+ message e))
       ∧ invocations (traceOf (withRetry (alwaysRejects rateLimited)
                                         "test operation" 1 tt)) = 1%nat
       ∧ delays (traceOf (withRetry (alwaysRejects rateLimited)
                                    "test operation" 1 tt)) = [1000]
       ∧ traceOf (withRetry (alwaysRejects rateLimited) "test operation" 1 tt)
         = [Invoked;
            Warned ("test operation" +:+ ": Retrying in 1000ms (attempt 1/1)");
            Slept 1000].
Proof.
  apply (withRetry_single_attempt (alwaysRejects rateLimited) "test operation" tt).
  intros k. exists rateLimited. split; reflexivity.
Defined.

(** C2 (as the specification words it) fails: a single attempt that is
    rate-limited is followed by a suspension of 1000 ms. *)
Lemma withRetry_single_attempt_sleeps :
  let run := withRetry (alwaysRejects rateLimited) "test operation" 1 tt in
  invocations (traceOf run) = 1%nat
  ∧ outcomeOf run
    = Rejected (newError "test operation: Failed after 1 attempts - Rate limited")
  ∧ delays (traceOf run) = [1000]
  ∧ delays (traceOf run) ≠ [].
Proof. split_and!; [reflexivity | reflexivity | reflexivity | discriminate]. Qed.

(** C3. With [maxRetries = 3] and an operation that always rejects with
    code 429, the operation is called exactly 3 times, the wrapper suspends
    exactly 3 times, for 1000, 2000 and 4000 ms in this order (that is
    [2^i * 1000] for attempt [i]), and then rejects with
    "<context>: Failed after 3 attempts - <message of the last error>". *)
Theorem withRetry_rate_limited_three {S T} (operation : S → Outcome T * S)
    (context : string) (s : S) :
  alwaysFails operation s (λ c, c = Some 429) →
  let run := withRetry operation context 3 s in
  ∃ e, nthOutcome operation s 2 = Rejected e
       ∧ outcomeOf run
         = Rejected (newError (context +:+ ": Failed after 3 attempts - "
                                       +:+ message e))
       ∧ invocations (traceOf run) = 3%nat
       ∧ delays (traceOf run) = [1000; 2000; 4000]
       ∧ delays (traceOf run) = (λ i, 2 ^ i * 1000) <$> [0; 1; 2].
Proof.
  intros Hall run. destruct (Hall 2%nat) as (e & He & _). exists e.
  assert (retryableUpTo operation s (Z.to_nat 3)) as Hup.
  { intros j _. destruct (Hall j) as (e' & He' & Hc). exists e'.
    split; [done |]. by rewrite Hc. }
  unfold run. rewrite (withRetry_exhausted operation context 3 s Hup).
  change (Z.to_nat 3) with 3%nat.
  rewrite outcomeOf_after, traceOf_after, invocations_app, delays_app.
  unfold lastErrorAfter. rewrite He. done.
Qed.

Lemma withRetry_rate_limited_three_witness :
  let run := withRetry (alwaysRejects rateLimited) "test operation" 3 tt in
  ∃ e, nthOutcome (alwaysRejects rateLimited) tt 2 = Rejected e
       ∧ outcomeOf run
         = Rejected (newError ("test operation" +:+ ": Failed after 3 attempts - "
                                                +:+ message e))
       ∧ invocations (traceOf run) = 3%nat
       ∧ delays (traceOf run) = [1000; 2000; 4000]
       ∧ delays (traceOf run) = (λ i, 2 ^ i * 1000) <$> [0; 1; 2].
Proof.
  apply (withRetry_rate_limited_three (alwaysRejects rateLimited)
           "test operation" tt).
  intros k. exists rateLimited. split; reflexivity.
Defined.

(** A run that reaches attempt [k < maxRetries] after [k] retryable
    failures continues with one more iteration of the loop. *)
Lemma withRetry_reaches {S T} (operation : S → Outcome T * S)
    (context : string) (maxRetries : Z) (s : S) (k : nat) :
  Z.of_nat k < maxRetries →
  retryableUpTo operation s k →
  ∃ rem,
    withRetry operation context maxRetries s
    = after (backoffEvents context maxRetries 0 k)
        (retryLoop operation context maxRetries (Datatypes.S rem)
           (Z.of_nat k) (lastErrorAfter operation None s k)
           (stateAfter operation s k)).
Proof.
  intros Hk Hup. set (rem := (Z.to_nat maxRetries - k - 1)%nat). exists rem.
  assert (Z.to_nat maxRetries = (k + Datatypes.S rem)%nat) as Heq by lia.
  unfold withRetry. rewrite Heq.
  by rewrite (loop_retries operation context maxRetries k _ 0 None s Hup).
Qed.

(** C5. A rejection with code 404 or 400 ends the run at once: when it
    happens on the first call (k = 0), or on call [k] after [k] retryable
    failures, the operation has been called exactly [k + 1] times, nothing
    follows that call, and the wrapper rejects with
    "<context>: Resource not found (may have been deleted)" for 404 and
    "<context>: Invalid request - <original message>" for 400. *)
Theorem withRetry_permanent_failure {S T} (operation : S → Outcome T * S)
    (context : string) (maxRetries : Z) (s : S) (k : nat) (e : RemoteError) :
  Z.of_nat k < maxRetries →
  retryableUpTo operation s k →
  nthOutcome operation s k = Rejected e →
  let run := withRetry operation context maxRetries s in
  (code e = Some 404 →
     outcomeOf run
     = Rejected (newError (context +:+ ": Resource not found (may have been deleted)"))
     ∧ invocations (traceOf run) = Datatypes.S k
     ∧ traceOf run = backoffEvents context maxRetries 0 k ++ [Invoked])
  ∧ (code e = Some 400 →
     outcomeOf run
     = Rejected (newError (context +:+ ": Invalid request - " +:+ message e))
     ∧ invocations (traceOf run) = Datatypes.S k
     ∧ traceOf run = backoffEvents context maxRetries 0 k ++ [Invoked]).
Proof.
  intros Hk Hup He run.
  destruct (withRetry_reaches operation context maxRetries s k Hk Hup)
    as (rem & Hrun).
  unfold run. rewrite Hrun. split; intros Hc.
  - rewrite (loop_notFound _ _ _ _ _ _ _ e He Hc).
    rewrite outcomeOf_after, traceOf_after, invocations_app, invocations_events.
    split_and!; [done | simpl; lia | done].
  - rewrite (loop_badRequest _ _ _ _ _ _ _ e He Hc).
    rewrite outcomeOf_after, traceOf_after, invocations_app, invocations_events.
    split_and!; [done | simpl; lia | done].
Qed.

Lemma withRetry_permanent_failure_witness :
  (outcomeOf (withRetry (alwaysRejects notFound) "test operation" 3 tt)
   = Rejected (newError "test operation: Resource not found (may have been deleted)")
   ∧ invocations (traceOf (withRetry (alwaysRejects notFound)
                                     "test operation" 3 tt)) = 1%nat
   ∧ traceOf (withRetry (alwaysRejects notFound) "test operation" 3 tt)
     = [Invoked])
  ∧ (outcomeOf (withRetry (alwaysRejects badRequest) "test operation" 3 tt)
     = Rejected (newError "test operation: Invalid request - Bad request")
     ∧ invocations (traceOf (withRetry (alwaysRejects badRequest)
                                       "test operation" 3 tt)) = 1%nat
     ∧ traceOf (withRetry (alwaysRejects badRequest) "test operation" 3 tt)
       = [Invoked]).
Proof.
  split.
  - apply (withRetry_permanent_failure (alwaysRejects notFound)
             "test operation" 3 tt 0 notFound);
      [lia | intros j Hj; lia | reflexivity | reflexivity].
  - apply (withRetry_permanent_failure (alwaysRejects badRequest)
             "test operation" 3 tt 0 badRequest);
      [lia | intros j Hj; lia | reflexivity | reflexivity].
Defined.

(** C6. A rejection with no status code, or with a code below 500 other
    than 400, 404 and 429, ends the run at once and is passed on as it is:
    on the first call (k = 0), or on call [k] after [k] retryable failures,
    the operation has been called exactly [k + 1] times, nothing follows
    that call, and the wrapper rejects with that same error value. *)
Theorem withRetry_unclassified {S T} (operation : S → Outcome T * S)
    (context : string) (maxRetries : Z) (s : S) (k : nat) (e : RemoteError) :
  Z.of_nat k < maxRetries →
  retryableUpTo operation s k →
  nthOutcome operation s k = Rejected e →
  code e = None
  ∨ (∃ c, code e = Some c ∧ c ≠ 400 ∧ c ≠ 404 ∧ c ≠ 429 ∧ c < 500) →
  let run := withRetry operation context maxRetries s in
  outcomeOf run = Rejected e
  ∧ invocations (traceOf run) = Datatypes.S k
  ∧ traceOf run = backoffEvents context maxRetries 0 k ++ [Invoked].
Proof.
  intros Hk Hup He Hc run.
  assert (unclassified (code e)) as Hun.
  { destruct Hc as [-> | (c & -> & ?)]; done. }
  destruct (withRetry_reaches operation context maxRetries s k Hk Hup)
    as (rem & Hrun).
  unfold run. rewrite Hrun, (loop_unclassified _ _ _ _ _ _ _ e He Hun).
  rewrite outcomeOf_after, traceOf_after, invocations_app, invocations_events.
  split_and!; [done | simpl; lia | done].
Qed.

Lemma withRetry_unclassified_witness :
  (outcomeOf (withRetry (alwaysRejects unknownError) "test operation" 3 tt)
   = Rejected unknownError
   ∧ invocations (traceOf (withRetry (alwaysRejects unknownError)
                                     "test operation" 3 tt)) = 1%nat
   ∧ traceOf (withRetry (alwaysRejects unknownError) "test operation" 3 tt)
     = [Invoked])
  ∧ (outcomeOf (withRetry (alwaysRejects forbidden) "test operation" 3 tt)
     = Rejected forbidden
     ∧ invocations (traceOf (withRetry (alwaysRejects forbidden)
                                       "test operation" 3 tt)) = 1%nat
     ∧ traceOf (withRetry (alwaysRejects forbidden) "test operation" 3 tt)
       = [Invoked]).
Proof.
  split.
  - apply (withRetry_unclassified (alwaysRejects unknownError)
             "test operation" 3 tt 0 unknownError);
      [lia | intros j Hj; lia | reflexivity | left; reflexivity].
  - apply (withRetry_unclassified (alwaysRejects forbidden)
             "test operation" 3 tt 0 forbidden);
      [lia | intros j Hj; lia | reflexivity |].
    right. exists 403. split_and!; [reflexivity | lia | lia | lia | lia].
Defined.

(** C7. When the operation resolves on call [k] (counted from 0,
    [k < maxRetries]) after [k] retryable failures, the wrapper resolves to
    that value and the operation has been called exactly [k + 1] times. *)
Theorem withRetry_succeeds_after_retries {S T} (operation : S → Outcome T * S)
    (context : string) (maxRetries : Z) (s : S) (k : nat) (v : T) :
  Z.of_nat k < maxRetries →
  retryableUpTo operation s k →
  nthOutcome operation s k = Resolved v →
  let run := withRetry operation context maxRetries s in
  outcomeOf run = Resolved v
  ∧ invocations (traceOf run) = Datatypes.S k
  ∧ traceOf run = backoffEvents context maxRetries 0 k ++ [Invoked].
Proof.
  intros Hk Hup Hv run.
  destruct (withRetry_reaches operation context maxRetries s k Hk Hup)
    as (rem & Hrun).
  unfold run. rewrite Hrun, (loop_resolved _ _ _ _ _ _ _ v Hv).
  rewrite outcomeOf_after, traceOf_after, invocations_app, invocations_events.
  split_and!; [done | simpl; lia | done].
Qed.

Lemma withRetry_succeeds_after_retries_witness :
  let run := withRetry (failsOnce serverError "success") "test operation" 3 0%nat in
  outcomeOf run = Resolved "success"%string
  ∧ invocations (traceOf run) = 2%nat
  ∧ traceOf run
    = backoffEvents "test operation" 3 0 1 ++ [Invoked].
Proof.
  apply (withRetry_succeeds_after_retries (failsOnce serverError "success")
           "test operation" 3 0%nat 1 "success"%string).
  - lia.
  - intros j Hj. exists serverError.
    destruct j as [|j]; [split; reflexivity | lia].
  - reflexivity.
Defined.

(** C9 (as the code has it). With [maxRetries <= 0] the loop body never
    runs: the operation is not called, nothing is logged or slept, and the
    wrapper rejects with the exhaustion message
    "<context>: Failed after <maxRetries> attempts - undefined", whose last
    part is the text "undefined", there being no last error.  The number in
    the message is [maxRetries] as JavaScript prints it: its decimal
    numeral for every safe integer, so "0" for 0 and "-2" for -2. *)
Theorem withRetry_no_attempts {S T} (operation : S → Outcome T * S)
    (context : string) (maxRetries : Z) (s : S) :
  maxRetries ≤ 0 →
  let run := withRetry operation context maxRetries s in
  invocations (traceOf run) = 0%nat
  ∧ traceOf run = []
  ∧ ∃ numeral,
      outcomeOf run
      = Rejected (newError (context +:+ ": Failed after " +:+ numeral
                                    +:+ " attempts - undefined"))
      ∧ (- 2 ^ 53 < maxRetries → numeral = JS.numToString maxRetries)
      ∧ (maxRetries = 0 → numeral = "0"%string)
      ∧ (maxRetries = -2 → numeral = "-2"%string).
Proof.
  intros Hm run. unfold run, withRetry.
  replace (Z.to_nat maxRetries) with 0%nat by lia.
  rewrite loop_exhausted. split_and!; [done | done |].
  exists (JS.numToString maxRetries).
  split_and!; [done | done | by intros -> | by intros ->].
Qed.

Lemma withRetry_no_attempts_witness :
  let run := withRetry (alwaysRejects rateLimited) "test operation" (-2) tt in
  invocations (traceOf run) = 0%nat
  ∧ traceOf run = []
  ∧ ∃ numeral,
      outcomeOf run
      = Rejected (newError ("test operation" +:+ ": Failed after " +:+ numeral
                                             +:+ " attempts - undefined"))
      ∧ (- 2 ^ 53 < -2 → numeral = JS.numToString (-2))
      ∧ (-2 = 0 → numeral = "0"%string)
      ∧ (-2 = -2 → numeral = "-2"%string).
Proof.
  apply (withRetry_no_attempts (alwaysRejects rateLimited) "test operation"
           (-2) tt).
  lia.
Defined.

(** C9 (as the specification words it) fails for a negative value: with
    [maxRetries = -2] the message reads "Failed after -2 attempts", not
    "Failed after 0 attempts". *)
Lemma withRetry_negative_attempts_message :
  let run := withRetry (alwaysRejects rateLimited) "test operation" (-2) tt in
  invocations (traceOf run) = 0%nat
  ∧ outcomeOf run
    = Rejected (newError "test operation: Failed after -2 attempts - undefined")
  ∧ outcomeOf run
    ≠ Rejected (newError "test operation: Failed after 0 attempts - undefined").
Proof. split_and!; [reflexivity | reflexivity | discriminate]. Qed.

(** * Further properties *)

(** ** The retry wrapper, for an arbitrary operation *)

Lemma lastErrorAfter_shift {S T} (operation : S → Outcome T * S) last s e k :
  nthOutcome operation s 0 = Rejected e →
  retryableUpTo operation s (Datatypes.S k) →
  lastErrorAfter operation (Some e) (stateAfter operation s 1) k
  = lastErrorAfter operation last s (Datatypes.S k).
Proof.
  intros He Hk. destruct k as [|k]; simpl.
  - by rewrite He.
  - destruct (Hk (Datatypes.S k) ltac:(lia)) as (e' & He' & _).
    change (nthOutcome operation (operation s).2 k)
      with (nthOutcome operation s (Datatypes.S k)).
    by rewrite He'.
Qed.

Lemma retryableUpTo_cons {S T} (operation : S → Outcome T * S) s e k :
  nthOutcome operation s 0 = Rejected e → retryable (code e) = true →
  retryableUpTo operation (stateAfter operation s 1) k →
  retryableUpTo operation s (Datatypes.S k).
Proof.
  intros He Hr Hk [|j] Hj; [by exists e |]. apply (Hk j). lia.
Qed.

Lemma loop_stops {S T} (operation : S → Outcome T * S) context maxRetries
    rem attempt last s :
  stops (nthOutcome operation s 0) →
  retryLoop operation context maxRetries (Datatypes.S rem) attempt last s
  = (settle context (nthOutcome operation s 0), stateAfter operation s 1,
     [Invoked]).
Proof.
  unfold nthOutcome, stops. simpl. unfold tryCatch, invoke.
  destruct (operation s) as [[v|e] s']; simpl; [done |].
  intros Hr. rewrite Hr.
  by destruct (codeIs (code e) 404), (codeIs (code e) 400).
Qed.

(** Every run is a number [k] of retried attempts followed either by
    exhaustion ([k] is the number of iterations) or by one last call whose
    outcome is not retried. *)
Lemma loop_shape {S T} (operation : S → Outcome T * S) context maxRetries rem :
  ∀ attempt last s,
  ∃ k, (k ≤ rem)%nat ∧ retryableUpTo operation s k
    ∧ ((k = rem
        ∧ retryLoop operation context maxRetries rem attempt last s
          = after (backoffEvents context maxRetries attempt k)
              (Rejected (newError (exhaustedMessage context maxRetries
                                     (lastErrorAfter operation last s k))),
               stateAfter operation s k, []))
       ∨ ((k < rem)%nat
          ∧ stops (nthOutcome operation s k)
          ∧ retryLoop operation context maxRetries rem attempt last s
            = after (backoffEvents context maxRetries attempt k)
                (settle context (nthOutcome operation s k),
                 stateAfter operation s (Datatypes.S k), [Invoked]))).
Proof.
  induction rem as [|rem IH]; intros attempt last s.
  - exists 0%nat. split_and!; [lia | intros j Hj; lia |]. left. done.
  - destruct (nthOutcome operation s 0) as [v|e] eqn:Ho.
    + exists 0%nat. split_and!; [lia | intros j Hj; lia |]. right.
      split_and!; [lia | by rewrite Ho |].
      rewrite loop_stops by (by rewrite Ho). by rewrite Ho.
    + destruct (retryable (code e)) eqn:Hr.
      * destruct (IH (attempt + 1) (Some e) (stateAfter operation s 1))
          as (k & Hk & Hup & Hcase).
        pose proof (retryableUpTo_cons _ _ _ _ Ho Hr Hup) as Hup'.
        exists (Datatypes.S k). split_and!; [lia | done |].
        rewrite (loop_retry _ _ _ _ _ _ _ _ Ho Hr).
        destruct Hcase as [(-> & ->) | (Hlt & Hstop & ->)]; [left | right].
        -- split; [done |]. rewrite after_after, <- events_succ.
           by rewrite (lastErrorAfter_shift _ last _ _ _ Ho Hup').
        -- split_and!; [lia | done |]. by rewrite after_after, <- events_succ.
      * exists 0%nat. split_and!; [lia | intros j Hj; lia |]. right.
        split_and!; [lia | by rewrite Ho |].
        rewrite loop_stops by (by rewrite Ho). by rewrite Ho.
Qed.

Lemma length_delays_events context maxRetries attempt k :
  length (delays (backoffEvents context maxRetries attempt k)) = k.
Proof. by rewrite delays_events, length_fmap, length_seq. Qed.

(** X1. Whatever the operation does, [withRetry] calls it at most
    [maxRetries] times (never for [maxRetries <= 0]), and it never suspends
    more often than it has called the operation. *)
Theorem withRetry_call_bound {S T} (operation : S → Outcome T * S)
    (context : string) (maxRetries : Z) (s : S) :
  let run := withRetry operation context maxRetries s in
  (invocations (traceOf run) ≤ Z.to_nat maxRetries)%nat
  ∧ (length (delays (traceOf run)) ≤ invocations (traceOf run))%nat.
Proof.
  intros run. unfold run, withRetry.
  destruct (loop_shape operation context maxRetries (Z.to_nat maxRetries)
              0 None s) as (k & Hk & _ & [(_ & ->) | (Hlt & _ & ->)]);
    rewrite traceOf_after, invocations_app, delays_app, List.length_app,
      invocations_events, length_delays_events; simpl; lia.
Qed.







Lemma stops_unclassified c :
  codeIs c 404 = false → codeIs c 400 = false → retryable c = false →
  unclassified c.
Proof.
  destruct c as [k|]; [| done]. unfold retryable, codeIs, unclassified.
  intros H1 H2 [H3 H4]%orb_false_iff. apply andb_false_iff in H4.
  split_and!; [lia | lia | lia |]. destruct H4 as [H4|H4]; lia.
Qed.

(** X3. An error that comes out of [withRetry] is of one of two kinds:
    an [Error] made by the wrapper, which has no status code and whose
    message starts with the context followed by ": ", or the very error of
    the last call of the operation, whose code is then absent or is a code
    below 500 other than 400, 404 and 429. *)
Theorem withRetry_rejection_shape {S T} (operation : S → Outcome T * S)
    (context : string) (maxRetries : Z) (s : S) (e : RemoteError) :
  outcomeOf (withRetry operation context maxRetries s) = Rejected e →
  (code e = None ∧ ∃ rest, message e = context +:+ ": " +:+ rest)
  ∨ (∃ k, (Z.of_nat k < maxRetries)
          ∧ nthOutcome operation s k = Rejected e
          ∧ unclassified (code e)
          ∧ invocations (traceOf (withRetry operation context maxRetries s))
            = Datatypes.S k).
Proof.
  unfold withRetry.
  destruct (loop_shape operation context maxRetries (Z.to_nat maxRetries)
              0 None s) as (k & Hk & _ & [(_ & ->) | (Hlt & Hstop & ->)]);
    rewrite outcomeOf_after, traceOf_after, invocations_app, invocations_events.
  - intros [= <-]. left. split; [done |]. by eexists.
  - unfold outcomeOf. simpl. destruct (nthOutcome operation s k) as [v|e'] eqn:Ho;
      simpl in *; [done |].
    destruct (codeIs (code e') 404) eqn:H404; [intros [= <-]; left |].
    { split; [done |]. by eexists. }
    destruct (codeIs (code e') 400) eqn:H400; [intros [= <-]; left |].
    { split; [done |]. by eexists. }
    intros [= <-]. right. exists k.
    split_and!; [lia | done | by apply stops_unclassified | lia].
Qed.

Lemma withRetry_rejection_shape_witness :
  (code forbidden = None
   ∧ ∃ rest, message forbidden = "test operation" +:+ ": " +:+ rest)
  ∨ (∃ k, (Z.of_nat k < 3)
          ∧ nthOutcome (alwaysRejects forbidden) tt k = Rejected forbidden
          ∧ unclassified (code forbidden)
          ∧ invocations (traceOf (withRetry (alwaysRejects forbidden)
                                            "test operation" 3 tt))
            = Datatypes.S k).
Proof.
  apply (withRetry_rejection_shape (alwaysRejects forbidden)
           "test operation" 3 tt forbidden).
  reflexivity.
Defined.

(** X4. [withRetry] resolves to [v] exactly when some call number
    [k < maxRetries] of the operation resolves to [v] and all the calls
    before it failed with a retryable code; the operation has then been
    called [k + 1] times. *)
Theorem withRetry_resolves_iff {S T} (operation : S → Outcome T * S)
    (context : string) (maxRetries : Z) (s : S) (v : T) :
  outcomeOf (withRetry operation context maxRetries s) = Resolved v
  ↔ ∃ k, Z.of_nat k < maxRetries
         ∧ retryableUpTo operation s k
         ∧ nthOutcome operation s k = Resolved v
         ∧ invocations (traceOf (withRetry operation context maxRetries s))
           = Datatypes.S k.
Proof.
  split.
  - unfold withRetry.
    destruct (loop_shape operation context maxRetries (Z.to_nat maxRetries)
                0 None s) as (k & Hk & Hup & [(_ & ->) | (Hlt & Hstop & ->)]);
      rewrite outcomeOf_after, traceOf_after, invocations_app,
        invocations_events; [done |].
    unfold outcomeOf. simpl.
    destruct (nthOutcome operation s k) as [v'|e'] eqn:Ho; simpl.
    + intros [= ->]. exists k. split_and!; [lia | done | done | lia].
    + by destruct (codeIs (code e') 404), (codeIs (code e') 400).
  - intros (k & Hk & Hup & Hv & _).
    destruct (withRetry_reaches operation context maxRetries s k Hk Hup)
      as (rem & ->).
    by rewrite (loop_resolved _ _ _ _ _ _ _ v Hv).
Qed.

Lemma withRetry_resolves_iff_witness :
  ∃ k, Z.of_nat k < 3
       ∧ retryableUpTo (failsOnce rateLimited "success") 0%nat k
       ∧ nthOutcome (failsOnce rateLimited "success") 0%nat k
         = Resolved "success"%string
       ∧ invocations (traceOf (withRetry (failsOnce rateLimited "success")
                                         "test operation" 3 0%nat))
         = Datatypes.S k.
Proof.
  apply (withRetry_resolves_iff (failsOnce rateLimited "success")
           "test operation" 3 0%nat "success"%string).
  reflexivity.
Defined.

(** ** More on [deduplicateFilenames] *)

Lemma numToString_inj a b : JS.numToString a = JS.numToString b → a = b.
Proof.
  assert (∀ z, NilZero.int_of_string (JS.numToString z) = Some (Z.to_int z))
    as Hback.
  { intros z. unfold JS.numToString. apply NilZero.isi.
    - intros Hz. pose proof (DecimalZ.of_to z) as Hof.
      rewrite Hz in Hof. simpl in Hof. by subst z.
    - intros Hz. pose proof (DecimalZ.of_to z) as Hof.
      rewrite Hz in Hof. simpl in Hof. by subst z. }
  intros Heq. pose proof (Hback a) as Ha. rewrite Heq, Hback in Ha.
  injection Ha as Ha. symmetry. by apply DecimalZ.to_int_inj.
Qed.

Lemma string_app_nil_r (s : string) : s +:+ "" = s.
Proof.
  induction s as [|a s IH]; [done |].
  change (String a (s +:+ "") = String a s). by rewrite IH.
Qed.

Lemma string_app_inv_head (p x y : string) : p +:+ x = p +:+ y → x = y.
Proof. induction p as [|a p IH]; simpl; [done |]. intros [= H]. auto. Qed.

Lemma string_app_inv_tail (x y q : string) : x +:+ q = y +:+ q → x = y.
Proof.
  revert y. induction x as [|a x IH]; intros [|b y] Heq.
  - done.
  - apply (f_equal String.length) in Heq. rewrite !length_app in Heq.
    simpl in Heq. exfalso. lia.
  - apply (f_equal String.length) in Heq. rewrite !length_app in Heq.
    simpl in Heq. exfalso. lia.
  - injection Heq as -> Heq. f_equal. by apply IH.
Qed.

Lemma substring_split (s : string) (i : nat) :
  (i ≤ String.length s)%nat →
  substring 0 i s +:+ substring i (String.length s - i) s = s.
Proof.
  revert i. induction s as [|a s IH]; intros [|i] Hi.
  - done.
  - simpl in Hi. lia.
  - apply (substring_all (String a s)).
  - change (String a (substring 0 i s +:+ substring i (String.length s - i) s)
            = String a s).
    rewrite IH; [done | simpl in Hi; lia].
Qed.

Lemma lastIndexOf_upper c s : JS.lastIndexOf c s < Z.of_nat (String.length s).
Proof.
  induction s as [|a s IH]; simpl; [lia |].
  destruct (0 <=? JS.lastIndexOf c s); [lia |].
  destruct (Ascii.eqb a c); lia.
Qed.

(** The suffix is inserted at a position that depends on the name only. *)
Lemma finalNameOf_split name :
  ∃ pre suf, name = pre +:+ suf
    ∧ ∀ count, (0 < count)%nat →
        finalNameOf name count
        = pre +:+ "_" +:+ JS.numToString (Z.of_nat count) +:+ suf.
Proof.
  destruct (Z.ltb_spec 0 (JS.lastIndexOf dot name)) as [Hpos|Hle].
  - exists (JS.slice name 0 (JS.lastIndexOf dot name)),
      (JS.sliceFrom name (JS.lastIndexOf dot name)).
    pose proof (lastIndexOf_upper dot name) as Hup. split.
    + unfold JS.sliceFrom, JS.slice. rewrite Z.sub_0_r. simpl.
      rewrite <- (substring_split name (Z.to_nat (JS.lastIndexOf dot name)))
        at 1 by lia.
      do 2 f_equal. lia.
    + intros count Hc. unfold finalNameOf.
      destruct (Nat.ltb_spec 0 count); [| lia].
      by destruct (Z.ltb_spec 0 (JS.lastIndexOf dot name)); [| lia].
  - exists name, ""%string. split.
    + by rewrite string_app_nil_r.
    + intros count Hc. unfold finalNameOf.
      destruct (Nat.ltb_spec 0 count); [| lia].
      destruct (Z.ltb_spec 0 (JS.lastIndexOf dot name)); [lia |].
      by rewrite string_app_nil_r.
Qed.

Lemma finalNameOf_inj name c c' :
  finalNameOf name c = finalNameOf name c' → c = c'.
Proof.
  destruct (finalNameOf_split name) as (pre & suf & Hname & Hfinal).
  assert (∀ k, (0 < k)%nat → finalNameOf name k ≠ name) as Hlonger.
  { intros k Hk Heq. rewrite (Hfinal k Hk) in Heq.
    apply (f_equal String.length) in Heq. rewrite Hname in Heq.
    rewrite !length_app in Heq. simpl in Heq. lia. }
  destruct c as [|c], c' as [|c']; [done | | |].
  - intros Heq. exfalso. apply (Hlonger (S c')); [lia | by rewrite <- Heq].
  - intros Heq. exfalso. apply (Hlonger (S c)); [lia | by rewrite Heq].
  - rewrite !Hfinal by lia. intros Heq.
    apply string_app_inv_head, (string_app_inv_head "_") in Heq.
    apply string_app_inv_tail, numToString_inj in Heq. lia.
Qed.

Lemma occurrences_take_le n l i j :
  (i ≤ j)%nat → (occurrences n (take i l) ≤ occurrences n (take j l))%nat.
Proof.
  revert i j. induction l as [|x l IH]; intros i j Hij.
  - by rewrite !take_nil.
  - destruct i as [|i], j as [|j]; simpl; try lia.
    specialize (IH i j ltac:(lia)). lia.
Qed.

Lemma occurrences_take_lt n l i j :
  (i < j)%nat → l !! i = Some n →
  (occurrences n (take i l) < occurrences n (take j l))%nat.
Proof.
  revert i j. induction l as [|x l IH]; intros i j Hij Hi; [done |].
  destruct j as [|j]; [lia |]. destruct i as [|i]; simpl in *.
  - injection Hi as ->. rewrite decide_True by done. lia.
  - specialize (IH i j ltac:(lia) Hi). lia.
Qed.

(** X5. Two entries that have the same original name never get the same
    output name. *)
Theorem deduplicateFilenames_same_name_distinct (files : list FileEntry)
    (i j : nat) (f g oi oj : FileEntry) :
  i ≠ j →
  files !! i = Some f → files !! j = Some g →
  filename f = filename g →
  deduplicateFilenames files !! i = Some oi →
  deduplicateFilenames files !! j = Some oj →
  filename oi ≠ filename oj.
Proof.
  intros Hij Hi Hj Hname Hoi Hoj.
  rewrite (deduplicateFilenames_lookup _ _ _ Hi) in Hoi.
  rewrite (deduplicateFilenames_lookup _ _ _ Hj) in Hoj.
  injection Hoi as <-. injection Hoj as <-. simpl. rewrite <- Hname.
  intros Heq%finalNameOf_inj.
  assert (names files !! i = Some (filename f)) as Hni.
  { unfold names. by rewrite list_lookup_fmap, Hi. }
  assert (names files !! j = Some (filename f)) as Hnj.
  { unfold names. by rewrite list_lookup_fmap, Hj, Hname. }
  destruct (Nat.lt_total i j) as [Hlt | [-> | Hlt]]; [| done |].
  - pose proof (occurrences_take_lt _ _ _ _ Hlt Hni). lia.
  - pose proof (occurrences_take_lt _ _ _ _ Hlt Hnj). lia.
Qed.

Lemma deduplicateFilenames_same_name_distinct_witness :
  deduplicateFilenames [fe "a.txt" []; fe "b" []; fe "a.txt" []] !! 0%nat
  = Some (fe "a.txt" [])
  ∧ deduplicateFilenames [fe "a.txt" []; fe "b" []; fe "a.txt" []] !! 2%nat
    = Some (fe "a_1.txt" [])
  ∧ filename (fe "a.txt" []) ≠ filename (fe "a_1.txt" []).
Proof.
  split_and!; [reflexivity | reflexivity |].
  apply (deduplicateFilenames_same_name_distinct
           [fe "a.txt" []; fe "b" []; fe "a.txt" []] 0 2
           (fe "a.txt" []) (fe "a.txt" []) (fe "a.txt" []) (fe "a_1.txt" []));
    [lia | reflexivity | reflexivity | reflexivity | reflexivity | reflexivity].
Defined.

Lemma dedupFrom_keeps_names seen files n :
  n ∈ names files → seen !! n = None → n ∈ names (dedupFrom seen files).
Proof.
  revert seen. induction files as [|f files IH]; intros seen Hn Hseen.
  - by apply elem_of_nil in Hn.
  - change (n ∈ filename f :: names files) in Hn.
    change (n ∈ finalNameOf (filename f) (default 0%nat (seen !! filename f))
              :: names (dedupFrom
                          (<[filename f := S (default 0%nat (seen !! filename f))]>
                             seen) files)).
    destruct (decide (filename f = n)) as [Heq|Hne].
    + rewrite Heq, Hseen. apply elem_of_cons. by left.
    + apply elem_of_cons in Hn as [Hn|Hn]; [done |].
      apply elem_of_cons. right. apply IH; [done |].
      by rewrite lookup_insert_ne.
Qed.

Lemma occurrences_none n l :
  (∀ j, l !! j ≠ Some n) → occurrences n l = 0%nat.
Proof.
  induction l as [|x l IH]; intros Hnone; [done |]. simpl.
  destruct (decide (x = n)) as [-> | _]; [by destruct (Hnone 0%nat) |].
  rewrite IH; [done |]. intros j. apply (Hnone (Datatypes.S j)).
Qed.

(** X6. The first entry that has a given name keeps it: an entry that no
    earlier entry shares its name with is returned unchanged, at the same
    position.  Hence no name is lost: every name that occurs in the input
    occurs among the output names. *)
Theorem deduplicateFilenames_keeps_names (files : list FileEntry) :
  (∀ i f,
     files !! i = Some f →
     (∀ j g, (j < i)%nat → files !! j = Some g → filename g ≠ filename f) →
     deduplicateFilenames files !! i = Some f)
  ∧ (∀ n, n ∈ names files → n ∈ names (deduplicateFilenames files)).
Proof.
  split.
  - intros i f Hi Hfirst. rewrite (deduplicateFilenames_lookup _ _ _ Hi).
    rewrite occurrences_none; [by destruct f |].
    intros j Hj. apply lookup_take_Some in Hj as [Hj Hlt].
    unfold names in Hj. rewrite list_lookup_fmap in Hj.
    destruct (files !! j) as [g|] eqn:Hg; [| done].
    injection Hj as Hj. by apply (Hfirst j g).
  - intros n Hn. rewrite deduplicateFilenames_unfold.
    by apply dedupFrom_keeps_names.
Qed.

Lemma deduplicateFilenames_keeps_names_witness :
  deduplicateFilenames clash !! 2%nat = Some (fe "file_1.txt" [Byte.x03])
  ∧ "file_1.txt"%string ∈ names (deduplicateFilenames clash).
Proof.
  destruct (deduplicateFilenames_keeps_names clash) as [Hfirst Hmem]. split.
  - apply (Hfirst 2%nat (fe "file_1.txt" [Byte.x03])); [reflexivity |].
    intros j g Hj Hg.
    destruct j as [|[|j]]; [| | lia]; injection Hg as <-; discriminate.
  - apply (Hmem "file_1.txt"%string).
    apply (bool_decide_unpack _). vm_compute. exact I.
Defined.

(** ** Substring tests *)

Lemma prefix_app (sub rest : string) : String.prefix sub (sub +:+ rest) = true.
Proof.
  induction sub as [|a sub IH]; [by destruct rest |].
  change (String.prefix (String a sub) (String a (sub +:+ rest)) = true).
  simpl. by destruct (ascii_dec a a).
Qed.

Lemma includes_unfold (sub s : string) :
  JSValue.includes sub s
  = String.prefix sub s
    || match s with
       | EmptyString => false
       | String _ s' => JSValue.includes sub s'
       end.
Proof. by destruct s. Qed.

Lemma includes_here (sub rest : string) :
  JSValue.includes sub (sub +:+ rest) = true.
Proof. by rewrite includes_unfold, prefix_app. Qed.

Lemma includes_app_r (sub a b : string) :
  JSValue.includes sub b = true → JSValue.includes sub (a +:+ b) = true.
Proof.
  intros Hb. induction a as [|c a IH]; [done |].
  change (JSValue.includes sub (String c (a +:+ b)) = true).
  rewrite includes_unfold, IH. apply orb_true_r.
Qed.

(** ** The retry wrapper as the other functions use it *)

Lemma withRetry_first_call {S T} (operation : S → Outcome T * S)
    (context : string) (maxRetries : Z) (s : S) :
  0 < maxRetries →
  stops (nthOutcome operation s 0) →
  withRetry operation context maxRetries s
  = (settle context (nthOutcome operation s 0), stateAfter operation s 1,
     [Invoked]).
Proof.
  intros Hm Hstop. unfold withRetry.
  destruct (Z.to_nat maxRetries) as [|rem] eqn:E; [lia |].
  by apply loop_stops.
Qed.

Lemma bind_resolved {S A B} (m : Run S A) (k : A → Run S B) s a s' t :
  m s = (Resolved a, s', t) → (m ≫= k) s = after t (k a s').
Proof. unfold mbind, run_bind. by intros ->. Qed.

Lemma bind_rejected {S A B} (m : Run S A) (k : A → Run S B) s e s' t :
  m s = (Rejected e, s', t) → (m ≫= k) s = (Rejected e, s', t).
Proof. unfold mbind, run_bind. by intros ->. Qed.

(** ** [extractAttachments] *)

Lemma MessagePart_nested_ind (P : MessagePart.t → Prop) :
  (∀ p, match MessagePart.parts p with
        | Some nested => Forall P nested
        | None => True
        end → P p) →
  ∀ p, P p.
Proof.
  intros Hstep. fix IH 1. intros [f m b ps]. apply Hstep. simpl.
  destruct ps as [nested|]; [| exact I].
  revert nested. fix IHnested 1. intros [|q nested].
  - constructor.
  - constructor; [apply IH | apply IHnested].
Qed.

Lemma extractAttachments_cons part parts messageId :
  extractAttachments (Some (part :: parts)) messageId
  = (if isAttachment part then [infoOf messageId part] else [])
    ++ extractAttachments (MessagePart.parts part) messageId
    ++ extractAttachments (Some parts) messageId.
Proof.
  simpl. rewrite app_assoc. f_equal. by destruct part as [f m b [nested|]].
Qed.

Lemma elem_of_extractPart messageId a : ∀ part,
  a ∈ extractPart messageId part
  ↔ (isAttachment part = true ∧ a = infoOf messageId part)
    ∨ ∃ nested p, MessagePart.parts part = Some nested ∧ partOf p nested
                  ∧ isAttachment p = true ∧ a = infoOf messageId p.
Proof.
  induction part as [part IH] using MessagePart_nested_ind.
  destruct part as [f m b ps]. simpl in IH.
  change (extractPart messageId (MessagePart.mk f m b ps))
    with ((if isAttachment (MessagePart.mk f m b ps)
           then [infoOf messageId (MessagePart.mk f m b ps)] else [])
          ++ match ps with
             | Some nested => flat_map (extractPart messageId) nested
             | None => []
             end).
  rewrite elem_of_app. simpl. split.
  - intros [Hown | Hnested].
    + left. destruct (isAttachment _); [| by apply elem_of_nil in Hown].
      apply list_elem_of_singleton in Hown. done.
    + right. destruct ps as [nested|]; [| by apply elem_of_nil in Hnested].
      exists nested. apply list_elem_of_In, in_flat_map in Hnested
        as (q & Hq%list_elem_of_In & Ha%list_elem_of_In).
      rewrite Forall_forall in IH. apply (IH q Hq) in Ha.
      destruct Ha as [[Hatt ->] | (nested' & p & Hps & Hp & Hatt & ->)].
      * exists q. split_and!; [done | by constructor | done | done].
      * exists p. split_and!; [done | | done | done].
        by apply (partOf_nested p q nested').
  - intros [[Hatt ->] | (nested & p & -> & Hp & Hatt & ->)].
    + left. rewrite Hatt. by apply list_elem_of_singleton.
    + right. rewrite Forall_forall in IH.
      apply list_elem_of_In, in_flat_map.
      induction Hp as [parts Hin | q nested' parts Hq Hps Hp IHp].
      * exists p. split; [by apply list_elem_of_In |].
        apply list_elem_of_In, (IH p Hin). by left.
      * exists q. split; [by apply list_elem_of_In |].
        apply list_elem_of_In, (IH q Hq). right.
        exists nested', p. done.
Qed.

Lemma elem_of_extractAttachments parts messageId a :
  a ∈ extractAttachments (Some parts) messageId
  ↔ ∃ p, partOf p parts ∧ isAttachment p = true ∧ a = infoOf messageId p.
Proof.
  unfold extractAttachments. split.
  - intros (q & Hq%list_elem_of_In & Ha%list_elem_of_In)%list_elem_of_In%in_flat_map.
    apply elem_of_extractPart in Ha
      as [[Hatt ->] | (nested & p & Hps & Hp & Hatt & ->)].
    + exists q. split_and!; [by constructor | done | done].
    + exists p. split_and!; [by apply (partOf_nested p q nested) | done | done].
  - intros (p & Hp & Hatt & ->). apply list_elem_of_In, in_flat_map.
    destruct Hp as [parts Hin | q nested parts Hq Hps Hp].
    + exists p. split; [by apply list_elem_of_In |].
      apply list_elem_of_In, elem_of_extractPart. by left.
    + exists q. split; [by apply list_elem_of_In |].
      apply list_elem_of_In, elem_of_extractPart. right. by exists nested, p.
Qed.

(** X7. [extractAttachments] finds exactly the attachments of the MIME
    tree: an entry is returned if and only if it is the record built from a
    part, at any depth of nesting, that has a non-empty filename and a
    non-empty attachment id; without parts the result is empty. *)
Theorem extractAttachments_complete (parts : list MessagePart.t)
    (messageId : string) (a : AttachmentInfo.t) :
  (a ∈ extractAttachments (Some parts) messageId
   ↔ ∃ p, partOf p parts
          ∧ JSValue.truthy (MessagePart.filename p) = true
          ∧ JSValue.truthy (bodyAttachmentId p) = true
          ∧ a = infoOf messageId p)
  ∧ extractAttachments None messageId = []
  ∧ extractAttachments (Some []) messageId = [].
Proof.
  split_and!; [| done | done]. rewrite elem_of_extractAttachments.
  split; intros (p & Hp & H).
  - exists p. split; [done |]. destruct H as [Hatt ->]. unfold isAttachment in Hatt.
    apply andb_true_iff in Hatt as [[Hf _]%andb_true_iff Hid]. done.
  - exists p. split; [done |]. destruct H as (Hf & Hid & ->).
    split; [| done]. unfold isAttachment. rewrite Hf, Hid.
    by destruct (MessagePart.filename p) as [[|c f]|].
Qed.

(** X8. Every entry returned by [extractAttachments] carries the message
    id it was called with, a non-empty filename, a non-empty attachment id
    and a non-empty MIME type. *)
Theorem extractAttachments_wellformed (parts : option (list MessagePart.t))
    (messageId : string) (a : AttachmentInfo.t) :
  a ∈ extractAttachments parts messageId →
  AttachmentInfo.messageId a = messageId
  ∧ AttachmentInfo.filename a ≠ ""%string
  ∧ AttachmentInfo.attachmentId a ≠ ""%string
  ∧ AttachmentInfo.mimeType a ≠ ""%string.
Proof.
  destruct parts as [parts|]; [| by intros ?%elem_of_nil].
  intros (p & _ & Hatt & ->)%elem_of_extractAttachments.
  unfold isAttachment in Hatt.
  apply andb_true_iff in Hatt as [[Hf _]%andb_true_iff Hid].
  unfold infoOf. simpl. split_and!; [done | | |].
  - by destruct (MessagePart.filename p) as [[|c f]|].
  - by destruct (bodyAttachmentId p) as [[|c f]|].
  - by destruct (MessagePart.mimeType p) as [[|c f]|].
Qed.

Example extractAttachments_nested :
  extractAttachments (Some nestedParts) "msg123"
  = [AttachmentInfo.mk "att_nested" "nested.doc" "application/msword" 500 "msg123";
     AttachmentInfo.mk "att_top" "top_level.bin" "application/octet-stream" 0
       "msg123"].
Proof. reflexivity. Qed.

Lemma extractAttachments_wellformed_witness :
  AttachmentInfo.messageId
    (AttachmentInfo.mk "att_top" "top_level.bin" "application/octet-stream" 0
       "msg123") = "msg123"%string
  ∧ AttachmentInfo.filename
      (AttachmentInfo.mk "att_top" "top_level.bin" "application/octet-stream" 0
         "msg123") ≠ ""%string
  ∧ AttachmentInfo.attachmentId
      (AttachmentInfo.mk "att_top" "top_level.bin" "application/octet-stream" 0
         "msg123") ≠ ""%string
  ∧ AttachmentInfo.mimeType
      (AttachmentInfo.mk "att_top" "top_level.bin" "application/octet-stream" 0
         "msg123") ≠ ""%string.
Proof.
  apply (extractAttachments_wellformed (Some nestedParts) "msg123").
  apply list_elem_of_In. right. left. reflexivity.
Defined.

(** ** [getMessageAttachments], [searchMessages], [downloadAttachment] *)

Lemma infoOf_wellformed messageId p :
  JSValue.truthy (MessagePart.filename p) = true →
  JSValue.truthy (bodyAttachmentId p) = true →
  AttachmentInfo.messageId (infoOf messageId p) = messageId
  ∧ AttachmentInfo.filename (infoOf messageId p) ≠ ""%string
  ∧ AttachmentInfo.attachmentId (infoOf messageId p) ≠ ""%string.
Proof.
  intros Hf Hid. unfold infoOf. simpl. split_and!; [done | |].
  - by destruct (MessagePart.filename p) as [[|c f]|].
  - by destruct (bodyAttachmentId p) as [[|c f]|].
Qed.

(** X9. When the first request for a message succeeds,
    [getMessageAttachments] makes that one request only, and every entry it
    returns carries the id of the requested message, a non-empty filename
    and a non-empty attachment id, whether the message is a single part or
    a tree of parts. *)
Theorem getMessageAttachments_wellformed {S}
    (get : string → S → Outcome Message.t * S) (messageId : string) (s : S)
    (message : Message.t) :
  nthOutcome (get messageId) s 0 = Resolved message →
  let run := getMessageAttachments get messageId s in
  outcomeOf run = Resolved (attachmentsOfMessage message messageId)
  ∧ invocations (traceOf run) = 1%nat
  ∧ ∀ a, a ∈ attachmentsOfMessage message messageId →
         AttachmentInfo.messageId a = messageId
         ∧ AttachmentInfo.filename a ≠ ""%string
         ∧ AttachmentInfo.attachmentId a ≠ ""%string.
Proof.
  intros Hget run. unfold run, getMessageAttachments.
  pose proof (withRetry_first_call (get messageId) (fetchContext messageId)
                3 s ltac:(lia)) as Hrun.
  rewrite Hget in Hrun. rewrite (bind_resolved _ _ _ _ _ _ (Hrun I)).
  split_and!; [done | done |].
  intros a. unfold attachmentsOfMessage, isSinglePart.
  destruct (Message.payload message) as [payload|]; simpl.
  - destruct (JSValue.truthy (bodyAttachmentId payload)) eqn:Hid; simpl.
    + destruct (JSValue.truthy (MessagePart.filename payload)) eqn:Hf.
      * intros ->%list_elem_of_singleton. by apply infoOf_wellformed.
      * intros Ha. by destruct (extractAttachments_wellformed _ _ _ Ha)
          as (? & ? & ? & _).
    + intros Ha. by destruct (extractAttachments_wellformed _ _ _ Ha)
        as (? & ? & ? & _).
  - by intros ?%elem_of_nil.
Qed.

Lemma getMessageAttachments_wellformed_witness :
  let run :=
    getMessageAttachments (λ _ (s : unit), (Resolved singlePartMessage, s))
      "msg123" tt in
  outcomeOf run
  = Resolved [AttachmentInfo.mk "att456" "single.txt" "text/plain" 100 "msg123"]
  ∧ invocations (traceOf run) = 1%nat.
Proof.
  destruct (getMessageAttachments_wellformed
              (λ _ (s : unit), (Resolved singlePartMessage, s))
              "msg123" tt singlePartMessage eq_refl) as (Hout & Hcalls & _).
  split; [exact Hout | exact Hcalls].
Defined.

(** X10. A 404 on the first request for a message makes
    [getMessageAttachments] fail after that single request with an error
    that the scanning loop of [main] recognises as "not found", so that the
    message is skipped and the scan goes on. *)
Theorem getMessageAttachments_not_found_is_skipped {S}
    (get : string → S → Outcome Message.t * S) (messageId : string) (s : S)
    (e : RemoteError) :
  nthOutcome (get messageId) s 0 = Rejected e →
  code e = Some 404 →
  let run := getMessageAttachments get messageId s in
  ∃ e', outcomeOf run = Rejected e'
        ∧ message e'
          = "Fetching message " +:+ messageId
            +:+ ": Resource not found (may have been deleted)"
        ∧ isNotFoundMessage (message e') = true
        ∧ invocations (traceOf run) = 1%nat.
Proof.
  intros Hget Hc run. unfold run, getMessageAttachments.
  pose proof (withRetry_first_call (get messageId) (fetchContext messageId)
                3 s ltac:(lia)) as Hrun.
  rewrite Hget in Hrun. simpl in Hrun. rewrite Hc in Hrun.
  assert (retryable (Some 404) = false) as Hnr by done.
  rewrite (bind_rejected _ _ _ _ _ _ (Hrun Hnr)).
  eexists. split_and!; [done | done | | done].
  change (isNotFoundMessage
            (fetchContext messageId
             +:+ ": Resource not found (may have been deleted)") = true).
  unfold isNotFoundMessage. apply orb_true_iff. left.
  by apply includes_app_r.
Qed.

Lemma getMessageAttachments_not_found_is_skipped_witness :
  let run :=
    getMessageAttachments (λ _ (s : unit), (Rejected notFound, s)) "msg123" tt in
  ∃ e', outcomeOf run = Rejected e'
        ∧ message e'
          = "Fetching message " +:+ "msg123"
            +:+ ": Resource not found (may have been deleted)"
        ∧ isNotFoundMessage (message e') = true
        ∧ invocations (traceOf run) = 1%nat.
Proof.
  apply (getMessageAttachments_not_found_is_skipped
           (λ _ (s : unit), (Rejected notFound, s)) "msg123" tt notFound);
    reflexivity.
Defined.

Lemma extractAttachments_complete_witness :
  ∃ p, partOf p nestedParts
       ∧ JSValue.truthy (MessagePart.filename p) = true
       ∧ JSValue.truthy (bodyAttachmentId p) = true
       ∧ AttachmentInfo.mk "att_nested" "nested.doc" "application/msword" 500
           "msg123" = infoOf "msg123" p.
Proof.
  apply (proj1 (extractAttachments_complete nestedParts "msg123"
                  (AttachmentInfo.mk "att_nested" "nested.doc"
                     "application/msword" 500 "msg123"))).
  apply list_elem_of_In. left. reflexivity.
Defined.

Section SearchFacts.

Context {S : Type}.
Variable listMessages : string → option string → S → Outcome ListResponse.t * S.
Variable query : string.

Lemma searchLoop_page fuel pageToken messageIds s response s' :
  listMessages query pageToken s = (Resolved response, s') →
  searchLoop listMessages query (Datatypes.S fuel) pageToken messageIds s
  = after [Invoked]
      (if JSValue.truthy (ListResponse.nextPageToken response)
       then searchLoop listMessages query fuel
              (ListResponse.nextPageToken response)
              (messageIds ++ idsOfPage response) s'
       else (Resolved (Some (messageIds ++ idsOfPage response)), s', [])).
Proof.
  intros Hlist. simpl.
  pose proof (withRetry_first_call (listMessages query pageToken)
                (searchContext query) 3 s ltac:(lia)) as Hrun.
  unfold nthOutcome, stateAfter in Hrun. rewrite Hlist in Hrun.
  rewrite (bind_resolved _ _ _ _ _ _ (Hrun I)).
  by destruct (JSValue.truthy (ListResponse.nextPageToken response)).
Qed.

Lemma searchLoop_serves s pageToken pages s' :
  serves listMessages query s pageToken pages s' →
  ∀ fuel messageIds, (length pages ≤ fuel)%nat →
  searchLoop listMessages query fuel pageToken messageIds s
  = (Resolved (Some (messageIds ++ concat (idsOfPage <$> pages))), s',
     replicate (length pages) Invoked).
Proof.
  induction 1 as [s tok r s' Hlist Hlast | s tok r s' pages s'' Hlist Hmore _ IH];
    intros fuel messageIds Hfuel; (destruct fuel as [|fuel]; [simpl in Hfuel; lia |]);
    rewrite (searchLoop_page _ _ _ _ _ _ Hlist).
  - rewrite Hlast. simpl. by rewrite app_nil_r.
  - rewrite Hmore, IH by (simpl in Hfuel; lia).
    simpl. by rewrite <- app_assoc.
Qed.

End SearchFacts.

(** X11. When the server answers with a chain of pages, each but the last
    carrying the token of the next, [searchMessages] requests every page
    once, in order, passing on the token it was given, and returns the
    non-empty message ids of all pages in page order; a number of loop
    rounds equal to the number of pages suffices. *)
Theorem searchMessages_collects_pages {S}
    (listMessages : string → option string → S → Outcome ListResponse.t * S)
    (query : string) (s s' : S) (pages : list ListResponse.t) (fuel : nat) :
  serves listMessages query s None pages s' →
  (length pages ≤ fuel)%nat →
  let run := searchMessages listMessages query fuel s in
  outcomeOf run = Resolved (Some (concat (idsOfPage <$> pages)))
  ∧ traceOf run = replicate (length pages) Invoked
  ∧ run.1.2 = s'.
Proof.
  intros Hserves Hfuel run. unfold run, searchMessages.
  by rewrite (searchLoop_serves _ _ _ _ _ _ Hserves fuel [] Hfuel).
Qed.

Lemma searchMessages_collects_pages_witness :
  let run := searchMessages twoPages "has:attachment" 2 0%nat in
  outcomeOf run = Resolved (Some ["msg1"; "msg2"; "msg3"]%string)
  ∧ traceOf run = [Invoked; Invoked]
  ∧ run.1.2 = 2%nat.
Proof.
  apply (searchMessages_collects_pages twoPages "has:attachment" 0%nat 2%nat
           [ListResponse.mk
              (Some [MessageRef.mk (Some "msg1"%string); MessageRef.mk None;
                     MessageRef.mk (Some "msg2"%string)])
              (Some "token123"%string);
            ListResponse.mk (Some [MessageRef.mk (Some "msg3"%string)]) None]
           2%nat).
  - eapply serves_more; [reflexivity | reflexivity |].
    apply serves_last; reflexivity.
  - simpl. lia.
Defined.

(** X12. A 400 on the first request makes [searchMessages] fail after that
    single request with the wrapper's "Invalid request" error, which [main]
    reports as an invalid search query with exit code 1, whatever the
    query is. *)
Theorem searchMessages_bad_request_is_user_error {S}
    (listMessages : string → option string → S → Outcome ListResponse.t * S)
    (query : string) (s : S) (fuel : nat) (e : RemoteError) :
  nthOutcome (listMessages query None) s 0 = Rejected e →
  code e = Some 400 →
  let run := searchMessages listMessages query (Datatypes.S fuel) s in
  ∃ e', outcomeOf run = Rejected e'
        ∧ message e'
          = searchContext query +:+ ": Invalid request - " +:+ message e
        ∧ searchFailureExitCode (message e') = EXIT_USER_ERROR
        ∧ invocations (traceOf run) = 1%nat.
Proof.
  intros Hlist Hc run. unfold run, searchMessages. simpl.
  pose proof (withRetry_first_call (listMessages query None)
                (searchContext query) 3 s ltac:(lia)) as Hrun.
  rewrite Hlist in Hrun. simpl in Hrun. rewrite Hc in Hrun.
  assert (retryable (Some 400) = false) as Hnr by done.
  rewrite (bind_rejected _ _ _ _ _ _ (Hrun Hnr)).
  eexists. split_and!; [done | done | | done].
  change (searchFailureExitCode
            (searchContext query +:+ ": Invalid request - " +:+ message e)
          = EXIT_USER_ERROR).
  unfold searchFailureExitCode.
  rewrite (includes_app_r "Invalid request" (searchContext query)); [done |].
  apply (includes_app_r "Invalid request" ": "
           ("Invalid request" +:+ " - " +:+ message e)).
  apply includes_here.
Qed.

Lemma searchMessages_bad_request_is_user_error_witness :
  let run :=
    searchMessages (λ _ _ (s : unit), (Rejected badRequest, s)) "is:bogus("
      1 tt in
  ∃ e', outcomeOf run = Rejected e'
        ∧ message e'
          = searchContext "is:bogus(" +:+ ": Invalid request - "
            +:+ message badRequest
        ∧ searchFailureExitCode (message e') = EXIT_USER_ERROR
        ∧ invocations (traceOf run) = 1%nat.
Proof.
  apply (searchMessages_bad_request_is_user_error
           (λ _ _ (s : unit), (Rejected badRequest, s)) "is:bogus(" tt 0
           badRequest); reflexivity.
Defined.

(** X13. When the first request for an attachment succeeds,
    [downloadAttachment] makes that one request only; if the response has
    no data, or empty data, it fails with "No data in attachment ..." and
    does not ask again, and otherwise it returns the decoded data under the
    filename it was called with. *)
Theorem downloadAttachment_first_response {S}
    (getAttachment : string → string → S → Outcome (option string) * S)
    (base64urlDecode : string → Buffer)
    (messageId attachmentId name : string) (s : S) (response : option string) :
  nthOutcome (getAttachment messageId attachmentId) s 0 = Resolved response →
  let run :=
    downloadAttachment getAttachment base64urlDecode messageId attachmentId
      name s in
  invocations (traceOf run) = 1%nat
  ∧ (response = None ∨ response = Some ""%string →
     outcomeOf run
     = Rejected (newError ("No data in attachment " +:+ JSValue.dquote +:+ name
                           +:+ JSValue.dquote +:+ " from message "
                           +:+ messageId)))
  ∧ (∀ d, response = Some d → d ≠ ""%string →
     outcomeOf run = Resolved (mkFileEntry name (base64urlDecode d))).
Proof.
  intros Hget run. unfold run, downloadAttachment.
  pose proof (withRetry_first_call (getAttachment messageId attachmentId)
                (downloadContext name messageId) 3 s ltac:(lia)) as Hrun.
  rewrite Hget in Hrun. rewrite (bind_resolved _ _ _ _ _ _ (Hrun I)).
  split_and!.
  - by destruct response as [[|c d]|].
  - by intros [-> | ->].
  - intros d -> Hd. by destruct d.
Qed.

Lemma downloadAttachment_first_response_witness :
  let run :=
    downloadAttachment (λ _ _ (s : unit), (Resolved (Some ""%string), s))
      (λ _, []) "msg123" "att456" "test.txt" tt in
  invocations (traceOf run) = 1%nat
  ∧ outcomeOf run
    = Rejected (newError ("No data in attachment " +:+ JSValue.dquote
                          +:+ "test.txt" +:+ JSValue.dquote
                          +:+ " from message " +:+ "msg123")).
Proof.
  destruct (downloadAttachment_first_response
              (λ _ _ (s : unit), (Resolved (Some ""%string), s))
              (λ _, []) "msg123" "att456" "test.txt" tt (Some ""%string)
              eq_refl) as (Hcalls & Hempty & _).
  split; [exact Hcalls | apply Hempty; right; reflexivity].
Defined.

(** X14. A 404 on the first request for an attachment makes
    [downloadAttachment] fail after that single request with an error that
    the download loop of [main] recognises as "not found", so that the
    attachment is skipped and the other downloads go on. *)
Theorem downloadAttachment_not_found_is_skipped {S}
    (getAttachment : string → string → S → Outcome (option string) * S)
    (base64urlDecode : string → Buffer)
    (messageId attachmentId name : string) (s : S) (e : RemoteError) :
  nthOutcome (getAttachment messageId attachmentId) s 0 = Rejected e →
  code e = Some 404 →
  let run :=
    downloadAttachment getAttachment base64urlDecode messageId attachmentId
      name s in
  ∃ e', outcomeOf run = Rejected e'
        ∧ message e'
          = downloadContext name messageId
            +:+ ": Resource not found (may have been deleted)"
        ∧ isNotFoundMessage (message e') = true
        ∧ invocations (traceOf run) = 1%nat.
Proof.
  intros Hget Hc run. unfold run, downloadAttachment.
  pose proof (withRetry_first_call (getAttachment messageId attachmentId)
                (downloadContext name messageId) 3 s ltac:(lia)) as Hrun.
  rewrite Hget in Hrun. simpl in Hrun. rewrite Hc in Hrun.
  assert (retryable (Some 404) = false) as Hnr by done.
  rewrite (bind_rejected _ _ _ _ _ _ (Hrun Hnr)).
  eexists. split_and!; [done | done | | done].
  change (isNotFoundMessage
            (downloadContext name messageId
             +:+ ": Resource not found (may have been deleted)") = true).
  unfold isNotFoundMessage. apply orb_true_iff. left.
  by apply includes_app_r.
Qed.

Lemma downloadAttachment_not_found_is_skipped_witness :
  let run :=
    downloadAttachment (λ _ _ (s : unit), (Rejected notFound, s))
      (λ _, []) "msg123" "att456" "test.txt" tt in
  ∃ e', outcomeOf run = Rejected e'
        ∧ message e'
          = downloadContext "test.txt" "msg123"
            +:+ ": Resource not found (may have been deleted)"
        ∧ isNotFoundMessage (message e') = true
        ∧ invocations (traceOf run) = 1%nat.
Proof.
  apply (downloadAttachment_not_found_is_skipped
           (λ _ _ (s : unit), (Rejected notFound, s)) (λ _, [])
           "msg123" "att456" "test.txt" tt notFound); reflexivity.
Defined.

(** ** [parseArgs] *)

Lemma parseLoop_app_bounded n : ∀ result args more result',
  (length args ≤ n)%nat →
  parseLoop result args = inl result' →
  parseLoop result (args ++ more) = parseLoop result' more.
Proof.
  induction n as [|n IH]; intros result args more result' Hlen Hparse.
  - destruct args; [| simpl in Hlen; lia]. by injection Hparse as ->.
  - destruct args as [|arg rest]; [by injection Hparse as -> |].
    simpl in Hlen. simpl in *.
    destruct ((arg =? "-h")%string || (arg =? "--help")%string).
    { apply IH; [lia | done]. }
    destruct ((arg =? "-o")%string || (arg =? "--output")%string).
    { destruct rest as [|value rest']; [done |]. simpl in *.
      apply IH; [lia | done]. }
    destruct (JSValue.startsWith "-" arg); [done |].
    apply IH; [lia | done].
Qed.

Lemma parseLoop_app result args more result' :
  parseLoop result args = inl result' →
  parseLoop result (args ++ more) = parseLoop result' more.
Proof. by apply (parseLoop_app_bounded (length args)). Qed.

Lemma not_dash_not_flag (q : string) :
  JSValue.startsWith "-" q = false →
  (q =? "-h")%string = false ∧ (q =? "--help")%string = false
  ∧ (q =? "-o")%string = false ∧ (q =? "--output")%string = false.
Proof.
  intros Hq. split_and!; apply String.eqb_neq; by intros ->.
Qed.

(** X15. Arguments are read from left to right and a later argument
    overrides an earlier one: after arguments that parse without error, a
    further positional argument becomes the query, "-o" or "--output" takes
    the next argument as the output name whatever it looks like, and "-h"
    or "--help" sets the help flag; the fields not concerned keep their
    values. *)
Theorem parseArgs_later_arguments_override (args : list string)
    (r : ParsedArgs.t) :
  parseArgs args = inl r →
  (∀ q, JSValue.startsWith "-" q = false →
        parseArgs (args ++ [q])
        = inl (ParsedArgs.mk q (ParsedArgs.output r) (ParsedArgs.help r)))
  ∧ (∀ flag value, flag = "-o"%string ∨ flag = "--output"%string →
        parseArgs (args ++ [flag; value])
        = inl (ParsedArgs.mk (ParsedArgs.query r) value (ParsedArgs.help r)))
  ∧ (∀ flag, flag = "-h"%string ∨ flag = "--help"%string →
        parseArgs (args ++ [flag])
        = inl (ParsedArgs.mk (ParsedArgs.query r) (ParsedArgs.output r) true)).
Proof.
  intros Hparse. unfold parseArgs in *. split_and!.
  - intros q Hq. rewrite (parseLoop_app _ _ _ _ Hparse). simpl.
    destruct (not_dash_not_flag q Hq) as (-> & -> & -> & ->). simpl.
    by rewrite Hq.
  - intros flag value [-> | ->]; by rewrite (parseLoop_app _ _ _ _ Hparse).
  - intros flag [-> | ->]; by rewrite (parseLoop_app _ _ _ _ Hparse).
Qed.

Lemma parseArgs_later_arguments_override_witness :
  parseArgs (["first query"; "-o"; "a.zip"]%string ++ ["-o"; "-h"]%string)
  = inl (ParsedArgs.mk "first query" "-h" false).
Proof.
  destruct (parseArgs_later_arguments_override
              ["first query"; "-o"; "a.zip"]%string
              (ParsedArgs.mk "first query" "a.zip" false) eq_refl)
    as (_ & Hout & _).
  apply (Hout "-o" "-h")%string. left. reflexivity.
Defined.

(** X16. After arguments that parse without error, a final "-o" or
    "--output" with nothing behind it, and any other argument that starts
    with "-", end the program with exit code 1 and an error message; what
    follows an unknown option is not looked at. *)
Theorem parseArgs_option_errors (args : list string) (r : ParsedArgs.t) :
  parseArgs args = inl r →
  (∀ flag, flag = "-o"%string ∨ flag = "--output"%string →
        parseArgs (args ++ [flag])
        = inr ("Error: -o/--output requires a filename argument"%string, 1))
  ∧ (∀ x rest,
        JSValue.startsWith "-" x = true →
        x ≠ "-h"%string → x ≠ "--help"%string →
        x ≠ "-o"%string → x ≠ "--output"%string →
        parseArgs (args ++ x :: rest)
        = inr ("Error: Unknown option " +:+ JSValue.dquote +:+ x
               +:+ JSValue.dquote, 1)).
Proof.
  intros Hparse. unfold parseArgs in *. split.
  - intros flag [-> | ->]; by rewrite (parseLoop_app _ _ _ _ Hparse).
  - intros x rest Hx H1 H2 H3 H4. rewrite (parseLoop_app _ _ _ _ Hparse).
    simpl. apply String.eqb_neq in H1, H2, H3, H4.
    by rewrite H1, H2, H3, H4, Hx.
Qed.

Lemma parseArgs_option_errors_witness :
  parseArgs (["query"; "-h"]%string ++ ["--output"]%string)
  = inr ("Error: -o/--output requires a filename argument"%string, 1)
  ∧ parseArgs (["query"; "-h"]%string ++ ["-"; "-o"; "x.zip"]%string)
    = inr ("Error: Unknown option " +:+ JSValue.dquote +:+ "-"
           +:+ JSValue.dquote, 1).
Proof.
  destruct (parseArgs_option_errors ["query"; "-h"]%string
              (ParsedArgs.mk "query" "attachments.zip" true) eq_refl)
    as (Hmissing & Hunknown).
  split.
  - apply Hmissing. right. reflexivity.
  - apply Hunknown; [reflexivity | discriminate | discriminate | discriminate
                    | discriminate].
Defined.

(** ** [formatBytes] *)

Lemma nearest_tenth_bounds (num den : Z) :
  0 < den →
  let n := (20 * num + den) / (2 * den) in
  - den < 2 * (den * n - 10 * num) ≤ den.
Proof.
  intros Hden n.
  pose proof (Z.mul_div_le (20 * num + den) (2 * den) ltac:(lia)) as Hlo.
  pose proof (Z.mul_succ_div_gt (20 * num + den) (2 * den) ltac:(lia)) as Hhi.
  fold n in Hlo, Hhi. lia.
Qed.

(** X17. For a safe integer count ([-2^53 < bytes < 2^53]),
    [formatBytes] prints a count below 1024 as it is, in B; a count from
    1024 up to 1048575 in KB and a larger one in MB, as the number of
    tenths nearest to the exact quotient (off by at most 0.05 of the unit),
    so that the KB figure ranges from 1.0 to 1024.0 inclusive. *)
Theorem formatBytes_nearest_tenth (bytes : Z) :
  - 2 ^ 53 < bytes < 2 ^ 53 →
  (bytes < 1024 → formatBytes bytes = JS.numToString bytes +:+ " B")
  ∧ (1024 ≤ bytes < 1048576 →
     ∃ n, formatBytes bytes
          = (JS.numToString (n / 10) +:+ "." +:+ JS.numToString (n mod 10))
            +:+ " KB"
          ∧ 10 ≤ n ≤ 10240
          ∧ -512 < 1024 * n - 10 * bytes ≤ 512)
  ∧ (1048576 ≤ bytes →
     ∃ n, formatBytes bytes
          = (JS.numToString (n / 10) +:+ "." +:+ JS.numToString (n mod 10))
            +:+ " MB"
          ∧ 10 ≤ n < 2 ^ 37
          ∧ -524288 < 1048576 * n - 10 * bytes ≤ 524288).
Proof.
  intros Hsafe. unfold formatBytes, toFixed1. split_and!.
  - intros Hb. by destruct (Z.ltb_spec bytes 1024); [| lia].
  - intros Hb. destruct (Z.ltb_spec bytes 1024); [lia |].
    destruct (Z.ltb_spec bytes (1024 * 1024)); [| lia].
    eexists. split; [reflexivity |].
    pose proof (nearest_tenth_bounds bytes 1024 ltac:(lia)) as Hn.
    simpl in Hn. lia.
  - intros Hb. destruct (Z.ltb_spec bytes 1024); [lia |].
    destruct (Z.ltb_spec bytes (1024 * 1024)); [lia |].
    eexists. split; [reflexivity |].
    pose proof (nearest_tenth_bounds bytes (1024 * 1024) ltac:(lia)) as Hn.
    simpl in Hn. lia.
Qed.

Example formatBytes_values :
  formatBytes <$> [0; 1023; 1024; 1536; 1048575; 1048576; 1572864; 1073741824]
  = ["0 B"; "1023 B"; "1.0 KB"; "1.5 KB"; "1024.0 KB"; "1.0 MB"; "1.5 MB";
     "1024.0 MB"]%string.
Proof. vm_compute. reflexivity. Qed.

Lemma formatBytes_nearest_tenth_witness :
  ∃ n, formatBytes 1048575
       = (JS.numToString (n / 10) +:+ "." +:+ JS.numToString (n mod 10))
         +:+ " KB"
       ∧ 10 ≤ n ≤ 10240
       ∧ -512 < 1024 * n - 10 * 1048575 ≤ 512.
Proof.
  apply (proj1 (proj2 (formatBytes_nearest_tenth 1048575 ltac:(lia)))). lia.
Defined.

(** ** [writeZipToFile] *)

Lemma string_app_assoc (a b c : string) : (a +:+ b) +:+ c = a +:+ b +:+ c.
Proof.
  induction a as [|x a IH]; [done |].
  change (String x ((a +:+ b) +:+ c) = String x (a +:+ b +:+ c)).
  by rewrite IH.
Qed.

Lemma includes_middle (before sub rest : string) :
  JSValue.includes sub (before +:+ sub +:+ rest) = true.
Proof. apply includes_app_r, includes_here. Qed.

Lemma writeFailure_names_path outputPath err :
  JSValue.includes (JSValue.dquote +:+ outputPath +:+ JSValue.dquote)
    (writeFailure outputPath err) = true.
Proof.
  unfold writeFailure. repeat case_decide;
    rewrite <- !(string_app_assoc outputPath),
      <- !(string_app_assoc JSValue.dquote);
    apply includes_middle.
Qed.

(** X18. [writeZipToFile] resolves to the path it was given exactly when
    the write succeeds; when the write throws, whatever the error code, it
    rejects with a new error without code whose message quotes that path;
    and it warns about overwriting exactly when the file existed before. *)
Theorem writeZipToFile_outcomes {S} (fileExists : string → S → bool)
    (bunWrite : string → Buffer → S → option Errno.t * S)
    (zipBuffer : Buffer) (outputPath : string) (s : S) :
  let run := writeZipToFile fileExists bunWrite zipBuffer outputPath s in
  ((bunWrite outputPath zipBuffer s).1 = None
   ↔ run.1.1 = Resolved outputPath)
  ∧ (∀ err, (bunWrite outputPath zipBuffer s).1 = Some err →
       ∃ e, run.1.1 = Rejected e ∧ code e = None
            ∧ JSValue.includes
                (JSValue.dquote +:+ outputPath +:+ JSValue.dquote) (message e)
              = true)
  ∧ (run.2 = if fileExists outputPath s
             then ["Warning: Overwriting existing file: " +:+ outputPath]
             else [])
  ∧ run.1.2 = (bunWrite outputPath zipBuffer s).2.
Proof.
  intros run. unfold run, writeZipToFile.
  destruct (bunWrite outputPath zipBuffer s) as [[err|] s']; simpl.
  - split_and!; [done | | done | done].
    intros ? [= <-]. eexists. split_and!; [done | done |].
    apply writeFailure_names_path.
  - split_and!; done.
Qed.

(** ** [refreshTokenIfNeeded] *)

Section RefreshFacts.

Context {S : Type}.
Variable refreshAccessToken : S → Outcome Credentials.t * S.
Variable writeToken : Credentials.t → S → Outcome unit * S.
Variable now : Z.

#[local] Abbreviation refresh :=
  (refreshTokenIfNeeded refreshAccessToken writeToken now).

Lemma preserveRefreshToken_truthy token credentials :
  JSValue.truthy (Credentials.refresh_token token) = true →
  JSValue.truthy
    (Credentials.refresh_token (preserveRefreshToken token credentials))
  = true.
Proof.
  intros Htoken. unfold preserveRefreshToken. rewrite Htoken, andb_true_r.
  by destruct (JSValue.truthy (Credentials.refresh_token credentials)) eqn:E.
Qed.

Lemma refresh_requested_iff token s :
  RefreshRequested ∈ (refresh token s).2
  ↔ expiresSoon now token = true
    ∧ JSValue.truthy (Credentials.refresh_token token) = true.
Proof.
  unfold refreshTokenIfNeeded, saveToken.
  destruct (expiresSoon now token);
    [destruct (JSValue.truthy (Credentials.refresh_token token)) |].
  - split; [done | intros _].
    destruct (refreshAccessToken s) as [[c|e] s1];
      [destruct (writeToken _ s1) as [[u|e] s2] | ]; simpl;
      do 2 (apply elem_of_cons; right); apply elem_of_cons; by left.
  - split; [| by intros [_ ?]]. simpl.
    intros [H | H%elem_of_nil]%elem_of_cons; done.
  - split; [| by intros [? _]]. simpl.
    intros [H | H%elem_of_nil]%elem_of_cons; done.
Qed.

End RefreshFacts.

(** X19. [refreshTokenIfNeeded] asks the client for a refresh exactly when
    the token has a non-zero expiry date that lies less than five minutes
    after the current time and a non-empty refresh token; a token without
    expiry date, with expiry date 0, or valid for five more minutes or
    longer is returned as it is, without any request or write. *)
Theorem refreshTokenIfNeeded_refreshes_iff {S}
    (refreshAccessToken : S → Outcome Credentials.t * S)
    (writeToken : Credentials.t → S → Outcome unit * S) (now : Z)
    (token : Credentials.t) (s : S) :
  let run := refreshTokenIfNeeded refreshAccessToken writeToken now token s in
  (RefreshRequested ∈ run.2
   ↔ (∃ d, Credentials.expiry_date token = Some d ∧ d ≠ 0
           ∧ d - now < 300000)
     ∧ (∃ c r, Credentials.refresh_token token = Some (String c r)))
  ∧ (Credentials.expiry_date token = None
     ∨ Credentials.expiry_date token = Some 0
     ∨ (∃ d, Credentials.expiry_date token = Some d ∧ now + 300000 ≤ d) →
     run = (Resolved token, s, [SetCredentials token])).
Proof.
  intros run. unfold run. split.
  - rewrite refresh_requested_iff. unfold expiresSoon.
    split; intros [Hexp Href]; split.
    + destruct (Credentials.expiry_date token) as [d|]; [| done].
      apply andb_true_iff in Hexp as [Hnz Hlt]. exists d.
      split_and!; [done | | lia].
      intros ->. done.
    + destruct (Credentials.refresh_token token) as [[|c r]|]; try done.
      by exists c, r.
    + destruct Hexp as (d & -> & Hnz & Hlt). apply andb_true_iff.
      split; [| lia]. apply negb_true_iff. lia.
    + by destruct Href as (c & r & ->).
  - intros Hfresh. unfold refreshTokenIfNeeded.
    assert (expiresSoon now token = false) as ->; [| done].
    unfold expiresSoon.
    destruct Hfresh as [-> | [-> | (d & -> & Hd)]]; [done | done |].
    apply andb_false_iff. right. lia.
Qed.

Lemma refreshTokenIfNeeded_refreshes_iff_witness :
  refreshTokenIfNeeded
    (λ s : unit, (Resolved (sampleToken (Some 9999999) None), s))
    (λ _ s, (Resolved tt, s)) 1000
    (sampleToken (Some 0) (Some "refresh-token"%string)) tt
  = (Resolved (sampleToken (Some 0) (Some "refresh-token"%string)), tt,
     [SetCredentials (sampleToken (Some 0) (Some "refresh-token"%string))]).
Proof.
  apply (proj2 (refreshTokenIfNeeded_refreshes_iff
                  (λ s : unit, (Resolved (sampleToken (Some 9999999) None), s))
                  (λ _ s, (Resolved tt, s)) 1000
                  (sampleToken (Some 0) (Some "refresh-token"%string)) tt)).
  right. left. reflexivity.
Defined.

(** X20. Whenever [refreshTokenIfNeeded] resolves, its result is either
    the token it was given, with no refresh requested, or refreshed
    credentials that carry a non-empty refresh token (the old one when the
    client returned none) and that are exactly what was written to the
    token file. *)
Theorem refreshTokenIfNeeded_result {S}
    (refreshAccessToken : S → Outcome Credentials.t * S)
    (writeToken : Credentials.t → S → Outcome unit * S) (now : Z)
    (token result : Credentials.t) (s : S) :
  let run := refreshTokenIfNeeded refreshAccessToken writeToken now token s in
  run.1.1 = Resolved result →
  (result = token ∧ RefreshRequested ∉ run.2)
  ∨ (∃ credentials,
       (refreshAccessToken s).1 = Resolved credentials
       ∧ result = preserveRefreshToken token credentials
       ∧ JSValue.truthy (Credentials.refresh_token result) = true
       ∧ WriteRequested result ∈ run.2
       ∧ Credentials.access_token result = Credentials.access_token credentials
       ∧ Credentials.expiry_date result = Credentials.expiry_date credentials).
Proof.
  intros run. unfold run, refreshTokenIfNeeded, saveToken.
  destruct (expiresSoon now token).
  - destruct (JSValue.truthy (Credentials.refresh_token token)) eqn:Href;
      [| done].
    destruct (refreshAccessToken s) as [[credentials|e] s1]; [| done].
    destruct (writeToken _ s1) as [[u|e] s2]; [| done]. simpl.
    intros [= <-]. right. exists credentials.
    split_and!; [done | done | by apply preserveRefreshToken_truthy | | |].
    + do 3 (apply elem_of_cons; right). apply elem_of_cons. by left.
    + unfold preserveRefreshToken. by destruct (_ && _).
    + unfold preserveRefreshToken. by destruct (_ && _).
  - simpl. intros [= <-]. left. split; [done |].
    intros [H | H%elem_of_nil]%elem_of_cons; done.
Qed.

Lemma refreshTokenIfNeeded_result_witness :
  let token := sampleToken (Some 61000) (Some "refresh-token"%string) in
  let fresh :=
    Credentials.mk (Some "refresh-token"%string) (Some 3601000)
      (Some "new-token"%string) None None None in
  let run :=
    refreshTokenIfNeeded
      (λ s : unit,
         (Resolved (Credentials.mk None (Some 3601000)
                      (Some "new-token"%string) None None None), s))
      (λ _ s, (Resolved tt, s)) 1000 token tt in
  (fresh = token ∧ RefreshRequested ∉ run.2)
  ∨ (∃ credentials,
       Resolved (Credentials.mk None (Some 3601000)
                   (Some "new-token"%string) None None None)
       = Resolved credentials
       ∧ fresh = preserveRefreshToken token credentials
       ∧ JSValue.truthy (Credentials.refresh_token fresh) = true
       ∧ WriteRequested fresh ∈ run.2
       ∧ Credentials.access_token fresh = Credentials.access_token credentials
       ∧ Credentials.expiry_date fresh = Credentials.expiry_date credentials).
Proof.
  apply (refreshTokenIfNeeded_result
           (λ s : unit,
              (Resolved (Credentials.mk None (Some 3601000)
                           (Some "new-token"%string) None None None), s))
           (λ _ s, (Resolved tt, s)) 1000
           (sampleToken (Some 61000) (Some "refresh-token"%string))
           (Credentials.mk (Some "refresh-token"%string) (Some 3601000)
              (Some "new-token"%string) None None None) tt).
  reflexivity.
Defined.

(** X21. A token that is about to expire and has no refresh token (or an
    empty one) is rejected with "Token expired and no refresh token
    available." without any request to the client and without any write. *)
Theorem refreshTokenIfNeeded_no_refresh_token {S}
    (refreshAccessToken : S → Outcome Credentials.t * S)
    (writeToken : Credentials.t → S → Outcome unit * S) (now : Z)
    (token : Credentials.t) (s : S) (d : Z) :
  Credentials.expiry_date token = Some d → d ≠ 0 → d - now < 300000 →
  Credentials.refresh_token token = None
  ∨ Credentials.refresh_token token = Some ""%string →
  refreshTokenIfNeeded refreshAccessToken writeToken now token s
  = (Rejected (newError "Token expired and no refresh token available."), s,
     [SetCredentials token]).
Proof.
  intros Hd Hnz Hlt Href. unfold refreshTokenIfNeeded, expiresSoon.
  rewrite Hd.
  assert (negb (d =? 0) && (d - now <? 5 * 60 * 1000) = true) as ->.
  { apply andb_true_iff. split; [apply negb_true_iff |]; lia. }
  by destruct Href as [-> | ->].
Qed.

Lemma refreshTokenIfNeeded_no_refresh_token_witness :
  refreshTokenIfNeeded
    (λ s : unit, (Resolved (sampleToken (Some 9999999) None), s))
    (λ _ s, (Resolved tt, s)) 100000 (sampleToken (Some 40000) None) tt
  = (Rejected (newError "Token expired and no refresh token available."), tt,
     [SetCredentials (sampleToken (Some 40000) None)]).
Proof.
  apply (refreshTokenIfNeeded_no_refresh_token
           (λ s : unit, (Resolved (sampleToken (Some 9999999) None), s))
           (λ _ s, (Resolved tt, s)) 100000 (sampleToken (Some 40000) None) tt
           40000); [reflexivity | lia | lia | left; reflexivity].
Defined.

Lemma writeZipToFile_outcomes_witness :
  ∃ e, (writeZipToFile (λ _ (s : unit), true)
          (λ _ _ s, (Some (Errno.mk (Some "ENOSPC"%string) "no space"), s))
          [] "out.zip" tt).1.1 = Rejected e
       ∧ code e = None
       ∧ JSValue.includes (JSValue.dquote +:+ "out.zip" +:+ JSValue.dquote)
           (message e) = true.
Proof.
  apply (proj1 (proj2 (writeZipToFile_outcomes (λ _ (s : unit), true)
                         (λ _ _ s,
                            (Some (Errno.mk (Some "ENOSPC"%string) "no space"), s))
                         [] "out.zip" tt))
           (Errno.mk (Some "ENOSPC"%string) "no space")).
  reflexivity.
Defined.

(** ** The loops of [main] *)

Lemma isNotFoundMessage_notFound context :
  isNotFoundMessage (notFoundMessage context) = true.
Proof.
  unfold isNotFoundMessage, notFoundMessage. apply orb_true_iff. left.
  by apply includes_app_r.
Qed.

Lemma apiCalls_app t t' : apiCalls (t ++ t') = (apiCalls t + apiCalls t')%nat.
Proof.
  induction t as [|[[| |]| | |] t IH]; simpl; try done. by rewrite IH.
Qed.

Section LoopFacts.

Context {S : Type}.
Variable get : string → S → Outcome Message.t * S.
Variable getAttachment : string → string → S → Outcome (option string) * S.
Variable base64urlDecode : string → Buffer.

Lemma getMessageAttachments_resolved messageId s m :
  (get messageId s).1 = Resolved m →
  getMessageAttachments get messageId s
  = (Resolved (attachmentsOfMessage m messageId), (get messageId s).2, [Invoked]).
Proof.
  intros Hget. unfold getMessageAttachments.
  pose proof (withRetry_first_call (get messageId) (fetchContext messageId)
                3 s ltac:(lia)) as Hrun.
  unfold nthOutcome, stateAfter in Hrun. rewrite Hget in Hrun.
  by rewrite (bind_resolved _ _ _ _ _ _ (Hrun I)).
Qed.

Lemma getMessageAttachments_notFound messageId s e :
  (get messageId s).1 = Rejected e → code e = Some 404 →
  getMessageAttachments get messageId s
  = (Rejected (newError (notFoundMessage (fetchContext messageId))),
     (get messageId s).2, [Invoked]).
Proof.
  intros Hget Hc. unfold getMessageAttachments.
  pose proof (withRetry_first_call (get messageId) (fetchContext messageId)
                3 s ltac:(lia)) as Hrun.
  unfold nthOutcome, stateAfter in Hrun. rewrite Hget in Hrun.
  simpl in Hrun. rewrite Hc in Hrun.
  assert (retryable (Some 404) = false) as Hnr by done.
  by rewrite (bind_rejected _ _ _ _ _ _ (Hrun Hnr)).
Qed.

Lemma downloadAttachment_resolved messageId attachmentId name s c d :
  (getAttachment messageId attachmentId s).1 = Resolved (Some (String c d)) →
  downloadAttachment getAttachment base64urlDecode messageId attachmentId name s
  = (Resolved (mkFileEntry name (base64urlDecode (String c d))),
     (getAttachment messageId attachmentId s).2, [Invoked]).
Proof.
  intros Hget. unfold downloadAttachment.
  pose proof (withRetry_first_call (getAttachment messageId attachmentId)
                (downloadContext name messageId) 3 s ltac:(lia)) as Hrun.
  unfold nthOutcome, stateAfter in Hrun. rewrite Hget in Hrun.
  by rewrite (bind_resolved _ _ _ _ _ _ (Hrun I)).
Qed.

Lemma downloadAttachment_notFound messageId attachmentId name s e :
  (getAttachment messageId attachmentId s).1 = Rejected e →
  code e = Some 404 →
  downloadAttachment getAttachment base64urlDecode messageId attachmentId name s
  = (Rejected (newError (notFoundMessage (downloadContext name messageId))),
     (getAttachment messageId attachmentId s).2, [Invoked]).
Proof.
  intros Hget Hc. unfold downloadAttachment.
  pose proof (withRetry_first_call (getAttachment messageId attachmentId)
                (downloadContext name messageId) 3 s ltac:(lia)) as Hrun.
  unfold nthOutcome, stateAfter in Hrun. rewrite Hget in Hrun.
  simpl in Hrun. rewrite Hc in Hrun.
  assert (retryable (Some 404) = false) as Hnr by done.
  by rewrite (bind_rejected _ _ _ _ _ _ (Hrun Hnr)).
Qed.

End LoopFacts.

Lemma scanLoop_skips_deleted {S} (get : string → S → Outcome Message.t * S)
    (answer : string → Outcome Message.t) (messageIds : list string) :
  (∀ messageId s, (get messageId s).1 = answer messageId) →
  (∀ messageId, messageId ∈ messageIds →
     (∃ m, answer messageId = Resolved m)
     ∨ (∃ e, answer messageId = Rejected e ∧ code e = Some 404)) →
  ∀ total i allAttachments s,
    let run := scanLoop get total i messageIds allAttachments s in
    run.1.1 = inl (allAttachments ++ flat_map (contribution answer) messageIds)
    ∧ apiCalls run.2 = length messageIds.
Proof.
  intros Hanswer. induction messageIds as [|messageId rest IH];
    intros Hok total i allAttachments s.
  - simpl. by rewrite app_nil_r.
  - assert (∀ id, id ∈ rest →
              (∃ m, answer id = Resolved m)
              ∨ (∃ e, answer id = Rejected e ∧ code e = Some 404)) as Hrest.
    { intros id Hid. apply Hok. by apply elem_of_cons; right. }
    specialize (IH Hrest). simpl. unfold contribution at 1.
    destruct (Hok messageId ltac:(by apply elem_of_cons; left))
      as [(m & Hm) | (e & He & Hc)].
    + rewrite (getMessageAttachments_resolved get messageId s m)
        by (by rewrite Hanswer). rewrite Hm.
      destruct (IH total (Datatypes.S i) (allAttachments ++ attachmentsOfMessage m messageId)
                  (get messageId s).2) as [Hout Hcalls].
      simpl. rewrite Hout, <- app_assoc. split; [done |].
      rewrite apiCalls_app, Hcalls. by destruct (_ || _).
    + rewrite (getMessageAttachments_notFound get messageId s e)
        by (by rewrite ?Hanswer). rewrite He.
      change (message (newError (notFoundMessage (fetchContext messageId))))
        with (notFoundMessage (fetchContext messageId)).
      rewrite isNotFoundMessage_notFound.
      destruct (IH total (Datatypes.S i) allAttachments (get messageId s).2)
        as [Hout Hcalls].
      simpl. rewrite Hout, ?apiCalls_app, Hcalls. done.
Qed.

(** X22. The scanning loop of [main], when every message either can be
    fetched or answers 404: each message is requested once; a message that
    answers 404 is skipped and contributes nothing; the loop does not exit
    and returns the attachments of the other messages in message order. *)
Theorem scanMessages_skips_deleted {S}
    (get : string → S → Outcome Message.t * S)
    (answer : string → Outcome Message.t) (messageIds : list string) (s : S) :
  (∀ messageId s, (get messageId s).1 = answer messageId) →
  (∀ messageId, messageId ∈ messageIds →
     (∃ m, answer messageId = Resolved m)
     ∨ (∃ e, answer messageId = Rejected e ∧ code e = Some 404)) →
  let run := scanMessages get messageIds s in
  run.1.1 = inl (flat_map (contribution answer) messageIds)
  ∧ apiCalls run.2 = length messageIds.
Proof.
  intros Hanswer Hok run. unfold run, scanMessages.
  apply (scanLoop_skips_deleted get answer messageIds Hanswer Hok
           (length messageIds) 0%nat [] s).
Qed.

Lemma downloadLoop_skips_deleted {S}
    (getAttachment : string → string → S → Outcome (option string) * S)
    (base64urlDecode : string → Buffer)
    (answer : string → string → Outcome (option string))
    (allAttachments : list AttachmentInfo.t) :
  (∀ messageId attachmentId s,
     (getAttachment messageId attachmentId s).1 = answer messageId attachmentId) →
  (∀ att, att ∈ allAttachments →
     (∃ c d, answer (AttachmentInfo.messageId att)
               (AttachmentInfo.attachmentId att)
             = Resolved (Some (String c d)))
     ∨ (∃ e, answer (AttachmentInfo.messageId att)
               (AttachmentInfo.attachmentId att) = Rejected e
             ∧ code e = Some 404)) →
  ∀ total i files s,
    let run :=
      downloadLoop getAttachment base64urlDecode total i allAttachments files s in
    run.1.1 = inl (files ++ omap (downloaded answer base64urlDecode) allAttachments)
    ∧ apiCalls run.2 = length allAttachments.
Proof.
  intros Hanswer. induction allAttachments as [|att rest IH];
    intros Hok total i files s.
  - simpl. by rewrite app_nil_r.
  - assert (∀ a, a ∈ rest →
              (∃ c d, answer (AttachmentInfo.messageId a)
                        (AttachmentInfo.attachmentId a)
                      = Resolved (Some (String c d)))
              ∨ (∃ e, answer (AttachmentInfo.messageId a)
                        (AttachmentInfo.attachmentId a) = Rejected e
                      ∧ code e = Some 404)) as Hrest.
    { intros a Ha. apply Hok. by apply elem_of_cons; right. }
    specialize (IH Hrest). simpl. unfold downloaded at 1.
    destruct (Hok att ltac:(by apply elem_of_cons; left))
      as [(c & d & Hd) | (e & He & Hc)].
    + rewrite (downloadAttachment_resolved getAttachment base64urlDecode
                 _ _ _ s c d) by (by rewrite Hanswer). rewrite Hd.
      match goal with
      | |- context [downloadLoop _ _ _ _ _ ?f ?s'] =>
          destruct (IH total (Datatypes.S i) f s') as [Hout Hcalls]
      end.
      simpl. rewrite Hout, ?apiCalls_app, Hcalls, <- app_assoc. done.
    + rewrite (downloadAttachment_notFound getAttachment base64urlDecode
                 _ _ _ s e) by (by rewrite ?Hanswer). rewrite He.
      match goal with
      | |- context [isNotFoundMessage (message (newError (notFoundMessage ?c)))] =>
          change (message (newError (notFoundMessage c)))
            with (notFoundMessage c)
      end.
      rewrite isNotFoundMessage_notFound.
      match goal with
      | |- context [downloadLoop _ _ _ _ _ ?f ?s'] =>
          destruct (IH total (Datatypes.S i) f s') as [Hout Hcalls]
      end.
      simpl. rewrite Hout, ?apiCalls_app, Hcalls. done.
Qed.

(** X23. The download loop of [main], when every attachment either comes
    back with non-empty data or answers 404: each attachment is requested
    once; one that answers 404 is skipped; the loop does not exit and
    returns, in order, one file per other attachment, named by the
    attachment's filename and holding the decoded data. *)
Theorem downloadAll_skips_deleted {S}
    (getAttachment : string → string → S → Outcome (option string) * S)
    (base64urlDecode : string → Buffer)
    (answer : string → string → Outcome (option string))
    (allAttachments : list AttachmentInfo.t) (s : S) :
  (∀ messageId attachmentId s,
     (getAttachment messageId attachmentId s).1 = answer messageId attachmentId) →
  (∀ att, att ∈ allAttachments →
     (∃ c d, answer (AttachmentInfo.messageId att)
               (AttachmentInfo.attachmentId att)
             = Resolved (Some (String c d)))
     ∨ (∃ e, answer (AttachmentInfo.messageId att)
               (AttachmentInfo.attachmentId att) = Rejected e
             ∧ code e = Some 404)) →
  let run := downloadAll getAttachment base64urlDecode allAttachments s in
  run.1.1 = inl (omap (downloaded answer base64urlDecode) allAttachments)
  ∧ apiCalls run.2 = length allAttachments.
Proof.
  intros Hanswer Hok run. unfold run, downloadAll.
  apply (downloadLoop_skips_deleted getAttachment base64urlDecode answer
           allAttachments Hanswer Hok (length allAttachments) 0%nat [] s).
Qed.

Lemma scanMessages_skips_deleted_witness :
  let run :=
    scanMessages (λ messageId (s : unit), (answerMessage messageId, s))
      ["m1"; "gone"; "m2"]%string tt in
  run.1.1
  = inl [AttachmentInfo.mk "att1" "report.pdf" "application/octet-stream" 1024 "m1";
         AttachmentInfo.mk "att1" "report.pdf" "application/octet-stream" 1024 "m2"]
  ∧ apiCalls run.2 = 3%nat.
Proof.
  apply (scanMessages_skips_deleted
           (λ messageId (s : unit), (answerMessage messageId, s))
           answerMessage ["m1"; "gone"; "m2"]%string tt).
  - intros messageId s. reflexivity.
  - intros messageId _. unfold answerMessage.
    destruct (messageId =? "gone")%string.
    + right. exists notFound. split; reflexivity.
    + left. eexists. reflexivity.
Defined.

Lemma downloadAll_skips_deleted_witness :
  let run :=
    downloadAll
      (λ messageId attachmentId (s : unit),
         (answerAttachment messageId attachmentId, s))
      (λ d, [])
      [AttachmentInfo.mk "att1" "a.pdf" "application/pdf" 10 "m1";
       AttachmentInfo.mk "gone" "b.pdf" "application/pdf" 10 "m1";
       AttachmentInfo.mk "att2" "a.pdf" "application/pdf" 10 "m2"] tt in
  run.1.1 = inl [mkFileEntry "a.pdf" []; mkFileEntry "a.pdf" []]
  ∧ apiCalls run.2 = 3%nat.
Proof.
  apply (downloadAll_skips_deleted
           (λ messageId attachmentId (s : unit),
              (answerAttachment messageId attachmentId, s))
           (λ d, []) answerAttachment
           [AttachmentInfo.mk "att1" "a.pdf" "application/pdf" 10 "m1";
            AttachmentInfo.mk "gone" "b.pdf" "application/pdf" 10 "m1";
            AttachmentInfo.mk "att2" "a.pdf" "application/pdf" 10 "m2"] tt).
  - intros messageId attachmentId s. reflexivity.
  - intros att _. unfold answerAttachment.
    destruct (AttachmentInfo.attachmentId att =? "gone")%string.
    + right. exists notFound. split; reflexivity.
    + left. eexists _, _. reflexivity.
Defined.
